(** * notes-app: the note list, its modal controller and its persistence

    A shallow embedding of [src/App.tsx].  The component keeps three pieces of
    React state ([notes], [modal], [markdownMode]), one react-hook-form field
    ([content]) and mirrors [notes] into [localStorage] as JSON.  Notes are
    JavaScript objects: arrays and the modal hold references to them, and
    [editNote] writes through such a reference, so the embedding keeps an
    explicit object heap.  Layout, focus, markdown rendering and date
    formatting are presentation and are left out. *)

From Stdlib Require Import List NArith ZArith Bool Arith String Ascii Lia.
Import ListNotations.

Set Implicit Arguments.
Set Warnings "-register-all".

(* ===================================================================== *)
(** * JavaScript strings                                                  *)
(* ===================================================================== *)

(** A JavaScript string is a finite sequence of UTF-16 code units. *)
Definition code_unit := N.
Definition jsstring := list code_unit.

Definition valid_unit (c : code_unit) : Prop := (c < 65536)%N.
Definition valid_string (s : jsstring) : Prop := Forall valid_unit s.

(** String literals of the source, written with Rocq strings. *)
Definition js (s : string) : jsstring :=
  List.map N_of_ascii (list_ascii_of_string s).

(** [a === b] on two strings. *)
Fixpoint jsstring_eqb (a b : jsstring) : bool :=
  match a, b with
  | [], [] => true
  | x :: a', y :: b' => N.eqb x y && jsstring_eqb a' b'
  | _, _ => false
  end.

(** [a < b] on two strings: code unit by code unit.  On the fixed-width
    output of [Date.prototype.toISOString] this is the order of the instants. *)
Fixpoint jsstring_ltb (a b : jsstring) : bool :=
  match a, b with
  | _, [] => false
  | [], _ :: _ => true
  | x :: a', y :: b' =>
      if N.ltb x y then true
      else if N.eqb x y then jsstring_ltb a' b'
      else false
  end.

(** A value of static type [string] that is [undefined] at run time, as
    [modal.data?.id!] is when [modal.data] is [null]. *)
Definition maybe_string := option jsstring.

(** [s === v] where [s] is a string and [v] a string or [undefined]. *)
Definition strict_eq (s : jsstring) (v : maybe_string) : bool :=
  match v with
  | Some t => jsstring_eqb s t
  | None => false
  end.

Inductive Error := TypeError | SyntaxError.

(* ===================================================================== *)
(** * The data model                                                      *)
(* ===================================================================== *)

(** [interface Note] *)
Record Note := mkNote {
  id : jsstring;
  content : jsstring;
  createdAt : jsstring;
  updatedAt : jsstring
}.

Definition valid_note (n : Note) : Prop :=
  valid_string (id n) /\ valid_string (content n) /\
  valid_string (createdAt n) /\ valid_string (updatedAt n).

(* ===================================================================== *)
(** * JSON.stringify on [Note[]]                                          *)
(* ===================================================================== *)

Module JSON.

Local Open Scope N_scope.

Definition is_leading_surrogate (c : code_unit) : bool :=
  (N.leb 55296 c && N.leb c 56319)%bool.      (* D800 .. DBFF *)
Definition is_trailing_surrogate (c : code_unit) : bool :=
  (N.leb 56320 c && N.leb c 57343)%bool.      (* DC00 .. DFFF *)

Definition hex_digit (d : N) : code_unit :=
  if N.ltb d 10 then 48 + d else 87 + d.  (* '0'..'9', 'a'..'f' *)

(** [UnicodeEscape]: backslash, [u] and four lowercase hexadecimal digits. *)
Definition UnicodeEscape (c : code_unit) : jsstring :=
  [92; 117;
   hex_digit ((c / 4096) mod 16); hex_digit ((c / 256) mod 16);
   hex_digit ((c / 16) mod 16); hex_digit (c mod 16)].

(** One code point that is a single code unit and not a leading surrogate. *)
Definition quote_unit (c : code_unit) : jsstring :=
  if N.eqb c 8 then [92; 98]            (* backspace *)
  else if N.eqb c 9 then [92; 116]      (* tab *)
  else if N.eqb c 10 then [92; 110]     (* line feed *)
  else if N.eqb c 12 then [92; 102]     (* form feed *)
  else if N.eqb c 13 then [92; 114]     (* carriage return *)
  else if N.eqb c 34 then [92; 34]      (* quotation mark *)
  else if N.eqb c 92 then [92; 92]      (* backslash *)
  else if N.ltb c 32 || is_trailing_surrogate c then UnicodeEscape c
  else [c].

(** The body of [QuoteJSONString]: the string is read code point by code
    point; a surrogate pair is copied, a lone surrogate is escaped. *)
Fixpoint quote_chars (s : jsstring) : jsstring :=
  match s with
  | [] => []
  | c :: rest =>
      if is_leading_surrogate c then
        match rest with
        | d :: rest' =>
            if is_trailing_surrogate d then c :: d :: quote_chars rest'
            else UnicodeEscape c ++ quote_chars rest
        | [] => UnicodeEscape c
        end
      else quote_unit c ++ quote_chars rest
  end.

Definition QuoteJSONString (s : jsstring) : jsstring :=
  34 :: quote_chars s ++ [34].

(** [SerializeJSONObject] on an object with the four own properties of a
    [Note], in the order [addNote] creates them; no gap, no indent. *)
Definition stringify_note (n : Note) : jsstring :=
  js "{" ++ QuoteJSONString (js "id") ++ js ":" ++ QuoteJSONString (id n)
  ++ js "," ++ QuoteJSONString (js "content") ++ js ":" ++ QuoteJSONString (content n)
  ++ js "," ++ QuoteJSONString (js "createdAt") ++ js ":" ++ QuoteJSONString (createdAt n)
  ++ js "," ++ QuoteJSONString (js "updatedAt") ++ js ":" ++ QuoteJSONString (updatedAt n)
  ++ js "}".

(** The elements of [SerializeJSONArray], separated by commas. *)
Fixpoint stringify_elements (l : list Note) : jsstring :=
  match l with
  | [] => []
  | [n] => stringify_note n
  | n :: rest => stringify_note n ++ js "," ++ stringify_elements rest
  end.

(** [JSON.stringify(notes)] for [notes : Note[]]. *)
Definition stringify (l : list Note) : jsstring :=
  js "[" ++ stringify_elements l ++ js "]".

(* ===================================================================== *)
(** * JSON.parse                                                          *)
(* ===================================================================== *)

(** The values [JSON.parse] builds.  A number keeps the exact decimal value
    [mantissa * 10 ^ exponent] of its literal, the Number being the double
    nearest to it.  An object keeps its own properties in creation order. *)
Inductive Value :=
| JNull
| JBool (b : bool)
| JNumber (negative : bool) (mantissa : N) (exponent : Z)
| JString (s : jsstring)
| JArray (elements : list Value)
| JObject (properties : list (jsstring * Value)).

Inductive Parse (A : Type) :=
| Parsed (a : A) (rest : jsstring)
| Invalid
| OutOfFuel.
Arguments Invalid {A}.
Arguments OutOfFuel {A}.

(** JSON white space: tab, line feed, carriage return, space. *)
Definition is_ws (c : code_unit) : bool :=
  (N.eqb c 9 || N.eqb c 10 || N.eqb c 13 || N.eqb c 32)%bool.

Fixpoint skip_ws (s : jsstring) : jsstring :=
  match s with
  | c :: rest => if is_ws c then skip_ws rest else s
  | [] => []
  end.

Definition hex_value (c : code_unit) : option N :=
  if (N.leb 48 c && N.leb c 57)%bool then Some (c - 48)          (* 0..9 *)
  else if (N.leb 97 c && N.leb c 102)%bool then Some (c - 87)    (* a..f *)
  else if (N.leb 65 c && N.leb c 70)%bool then Some (c - 55)     (* A..F *)
  else None.

Definition hex4 (a b c d : code_unit) : option code_unit :=
  match hex_value a, hex_value b, hex_value c, hex_value d with
  | Some x, Some y, Some z, Some w => Some (x * 4096 + y * 256 + z * 16 + w)
  | _, _, _, _ => None
  end.

(** The character a two-character escape stands for. *)
Definition simple_escape (c : code_unit) : option code_unit :=
  if N.eqb c 34 then Some 34
  else if N.eqb c 92 then Some 92
  else if N.eqb c 47 then Some 47
  else if N.eqb c 98 then Some 8
  else if N.eqb c 102 then Some 12
  else if N.eqb c 110 then Some 10
  else if N.eqb c 114 then Some 13
  else if N.eqb c 116 then Some 9
  else None.

Definition push_unit (c : code_unit) (r : option (jsstring * jsstring))
  : option (jsstring * jsstring) :=
  match r with
  | Some (s, rest) => Some (c :: s, rest)
  | None => None
  end.

(** The characters of a string literal after its opening quotation mark, up
    to and including the closing one. *)
Fixpoint parse_string_chars (s : jsstring) : option (jsstring * jsstring) :=
  match s with
  | [] => None
  | c :: rest =>
      if N.eqb c 34 then Some ([], rest)
      else if N.eqb c 92 then
        match rest with
        | [] => None
        | e :: rest1 =>
            if N.eqb e 117 then
              match rest1 with
              | h1 :: h2 :: h3 :: h4 :: rest2 =>
                  match hex4 h1 h2 h3 h4 with
                  | Some u => push_unit u (parse_string_chars rest2)
                  | None => None
                  end
              | _ => None
              end
            else
              match simple_escape e with
              | Some u => push_unit u (parse_string_chars rest1)
              | None => None
              end
        end
      else if N.ltb c 32 then None
      else push_unit c (parse_string_chars rest)
  end.

Definition is_digit (c : code_unit) : bool := (N.leb 48 c && N.leb c 57)%bool.

(** The longest prefix of decimal digits, as digit values. *)
Fixpoint take_digits (s : jsstring) : list N * jsstring :=
  match s with
  | c :: rest =>
      if is_digit c then
        let (ds, rest') := take_digits rest in (c - 48 :: ds, rest')
      else ([], s)
  | [] => ([], [])
  end.

Definition digits_value (ds : list N) : N :=
  fold_left (fun acc d => 10 * acc + d) ds 0.

(** The exponent part of a number, if there is one. *)
Definition parse_exponent (s : jsstring) : option (Z * jsstring) :=
  match s with
  | c :: rest =>
      if (N.eqb c 101 || N.eqb c 69)%bool then
        let (neg, rest1) :=
          match rest with
          | sg :: r => if N.eqb sg 45 then (true, r)
                       else if N.eqb sg 43 then (false, r) else (false, rest)
          | [] => (false, rest)
          end in
        match take_digits rest1 with
        | ([], _) => None
        | (ds, rest2) =>
            let e := Z.of_N (digits_value ds) in
            Some (if neg then Z.opp e else e, rest2)
        end
      else Some (0%Z, s)
  | [] => Some (0%Z, s)
  end.

(** The fraction part of a number, if there is one. *)
Definition parse_fraction (s : jsstring) : option (list N * jsstring) :=
  match s with
  | c :: rest =>
      if N.eqb c 46 then
        match take_digits rest with
        | ([], _) => None
        | (ds, rest1) => Some (ds, rest1)
        end
      else Some ([], s)
  | [] => Some ([], s)
  end.

(** The integer part: a single zero, or a non-zero digit and more digits. *)
Definition parse_int (s : jsstring) : option (list N * jsstring) :=
  match s with
  | c :: rest =>
      if N.eqb c 48 then Some ([0], rest)
      else if is_digit c then
        let (ds, rest1) := take_digits rest in Some (c - 48 :: ds, rest1)
      else None
  | [] => None
  end.

Definition parse_number (s : jsstring) : Parse Value :=
  let (neg, s1) :=
    match s with
    | c :: rest => if N.eqb c 45 then (true, rest) else (false, s)
    | [] => (false, s)
    end in
  match parse_int s1 with
  | None => Invalid
  | Some (ints, s2) =>
      match parse_fraction s2 with
      | None => Invalid
      | Some (fracs, s3) =>
          match parse_exponent s3 with
          | None => Invalid
          | Some (e, s4) =>
              Parsed (JNumber neg (digits_value (ints ++ fracs))
                              (e - Z.of_nat (List.length fracs))) s4
          end
      end
  end.

Fixpoint strip_prefix (p s : jsstring) : option jsstring :=
  match p, s with
  | [], _ => Some s
  | x :: p', y :: s' => if N.eqb x y then strip_prefix p' s' else None
  | _ :: _, [] => None
  end.

Definition parse_literal (word : jsstring) (v : Value) (s : jsstring) : Parse Value :=
  match strip_prefix word s with
  | Some rest => Parsed v rest
  | None => Invalid
  end.

(** [CreateDataProperty]: a repeated key keeps its place and takes the
    later value. *)
Fixpoint define_property (k : jsstring) (v : Value)
    (props : list (jsstring * Value)) : list (jsstring * Value) :=
  match props with
  | [] => [(k, v)]
  | (k', v') :: rest =>
      if jsstring_eqb k' k then (k', v) :: rest
      else (k', v') :: define_property k v rest
  end.

Definition make_object (members : list (jsstring * Value)) : Value :=
  JObject (fold_left (fun o kv => define_property (fst kv) (snd kv) o) members []).

(** Recursive descent over the JSON grammar.  [parse_value] reads white
    space and one value; [parse_elements] reads the elements of an array up
    to its closing bracket; [parse_members] the members of an object up to
    its closing brace. *)
Fixpoint parse_value (fuel : nat) (s : jsstring) {struct fuel} : Parse Value :=
  match fuel with
  | O => OutOfFuel
  | S fuel' =>
      match skip_ws s with
      | [] => Invalid
      | c :: rest =>
          if N.eqb c 123 then
            match skip_ws rest with
            | [] => Invalid
            | d :: rest' =>
                if N.eqb d 125 then Parsed (JObject []) rest'
                else
                  match parse_members fuel' (d :: rest') with
                  | Parsed ms r => Parsed (make_object ms) r
                  | Invalid => Invalid
                  | OutOfFuel => OutOfFuel
                  end
            end
          else if N.eqb c 91 then
            match skip_ws rest with
            | [] => Invalid
            | d :: rest' =>
                if N.eqb d 93 then Parsed (JArray []) rest'
                else
                  match parse_elements fuel' (d :: rest') with
                  | Parsed vs r => Parsed (JArray vs) r
                  | Invalid => Invalid
                  | OutOfFuel => OutOfFuel
                  end
            end
          else if N.eqb c 34 then
            match parse_string_chars rest with
            | Some (str, r) => Parsed (JString str) r
            | None => Invalid
            end
          else if N.eqb c 116 then parse_literal (js "true") (JBool true) (c :: rest)
          else if N.eqb c 102 then parse_literal (js "false") (JBool false) (c :: rest)
          else if N.eqb c 110 then parse_literal (js "null") JNull (c :: rest)
          else parse_number (c :: rest)
      end
  end

with parse_elements (fuel : nat) (s : jsstring) {struct fuel} : Parse (list Value) :=
  match fuel with
  | O => OutOfFuel
  | S fuel' =>
      match parse_value fuel' s with
      | Parsed v r =>
          match skip_ws r with
          | [] => Invalid
          | c :: r' =>
              if N.eqb c 44 then
                match parse_elements fuel' r' with
                | Parsed vs r'' => Parsed (v :: vs) r''
                | Invalid => Invalid
                | OutOfFuel => OutOfFuel
                end
              else if N.eqb c 93 then Parsed [v] r'
              else Invalid
          end
      | Invalid => Invalid
      | OutOfFuel => OutOfFuel
      end
  end

with parse_members (fuel : nat) (s : jsstring) {struct fuel}
  : Parse (list (jsstring * Value)) :=
  match fuel with
  | O => OutOfFuel
  | S fuel' =>
      match skip_ws s with
      | [] => Invalid
      | q :: s1 =>
          if N.eqb q 34 then
            match parse_string_chars s1 with
            | None => Invalid
            | Some (k, s2) =>
                match skip_ws s2 with
                | [] => Invalid
                | colon :: s3 =>
                    if N.eqb colon 58 then
                      match parse_value fuel' s3 with
                      | Parsed v r =>
                          match skip_ws r with
                          | [] => Invalid
                          | c :: r' =>
                              if N.eqb c 44 then
                                match parse_members fuel' r' with
                                | Parsed ms r'' => Parsed ((k, v) :: ms) r''
                                | Invalid => Invalid
                                | OutOfFuel => OutOfFuel
                                end
                              else if N.eqb c 125 then Parsed [(k, v)] r'
                              else Invalid
                          end
                      | Invalid => Invalid
                      | OutOfFuel => OutOfFuel
                      end
                    else Invalid
                end
            end
          else Invalid
      end
  end.

Definition parse_fuel (text : jsstring) : nat := S (2 * List.length text).

Inductive Result (A : Type) :=
| Return (a : A)
| Raise (e : Error).
Arguments Raise {A}.

(** [JSON.parse(text)]: one value between optional white space, or a
    [SyntaxError].  The fuel given is never used up ([parse_value_fuel]). *)
Definition parse (text : jsstring) : Result Value :=
  match parse_value (parse_fuel text) text with
  | Parsed v rest =>
      match skip_ws rest with
      | [] => Return v
      | _ :: _ => Raise SyntaxError
      end
  | Invalid => Raise SyntaxError
  | OutOfFuel => Raise SyntaxError
  end.

(** The Number a literal denotes is zero when its digits are all zero, or
    when its value is at most [2 ^ -1075], half the least positive double. *)
Definition number_is_zero (mantissa : N) (exponent : Z) : bool :=
  (N.eqb mantissa 0
   || (Z.ltb exponent 0
       && Z.leb (Z.of_N mantissa * 2 ^ 1075) (10 ^ (- exponent))))%bool.

(** [ToBoolean] *)
Definition truthy (v : Value) : bool :=
  match v with
  | JNull => false
  | JBool b => b
  | JNumber _ m e => negb (number_is_zero m e)
  | JString s => match s with [] => false | _ :: _ => true end
  | JArray _ => true
  | JObject _ => true
  end.

End JSON.

(* ===================================================================== *)
(** * Persistence: the [notes] slot of localStorage                       *)
(* ===================================================================== *)

Import JSON.

(** [localStorage]: keys to string values. *)
Definition Storage := jsstring -> option jsstring.

(** [localStorage.getItem(k)]: the stored string, or [null]. *)
Definition getItem (k : jsstring) (s : Storage) : option jsstring := s k.

Definition setItem (k v : jsstring) (s : Storage) : Storage :=
  fun k' => if jsstring_eqb k' k then Some v else s k'.

(** [JSON.parse] applies [ToString] to its argument: [null] reads as the
    text [null]. *)
Definition ToString (v : option jsstring) : jsstring :=
  match v with
  | Some s => s
  | None => js "null"
  end.

(** Line 23, the initial value of [notes]:
    [JSON.parse(localStorage.getItem('notes')!) || []]. *)
Definition load (s : Storage) : Result Value :=
  match parse (ToString (getItem (js "notes") s)) with
  | Return v => Return (if truthy v then v else JArray [])
  | Raise e => Raise e
  end.

(** Lines 28-30: [localStorage.setItem('notes', JSON.stringify(notes))]. *)
Definition save (l : list Note) (s : Storage) : Storage :=
  setItem (js "notes") (stringify l) s.

(** A [Note] as the JavaScript object it is. *)
Definition note_value (n : Note) : Value :=
  JObject [(js "id", JString (id n)); (js "content", JString (content n));
           (js "createdAt", JString (createdAt n));
           (js "updatedAt", JString (updatedAt n))].

Definition notes_value (l : list Note) : Value := JArray (List.map note_value l).

Fixpoint get_property (k : jsstring) (props : list (jsstring * Value)) : option Value :=
  match props with
  | [] => None
  | (k', v) :: rest => if jsstring_eqb k' k then Some v else get_property k rest
  end.

(** Reading a loaded value at the type [Note[]] the source gives it. *)
Definition as_note (v : Value) : option Note :=
  match v with
  | JObject props =>
      match get_property (js "id") props, get_property (js "content") props,
            get_property (js "createdAt") props, get_property (js "updatedAt") props with
      | Some (JString i), Some (JString c), Some (JString ca), Some (JString ua) =>
          Some (mkNote i c ca ua)
      | _, _, _, _ => None
      end
  | _ => None
  end.

Fixpoint as_note_list (vs : list Value) : option (list Note) :=
  match vs with
  | [] => Some []
  | v :: rest =>
      match as_note v, as_note_list rest with
      | Some n, Some ns => Some (n :: ns)
      | _, _ => None
      end
  end.

Definition as_notes (v : Value) : option (list Note) :=
  match v with
  | JArray vs => as_note_list vs
  | _ => None
  end.

(* ===================================================================== *)
(** * The component state                                                 *)
(* ===================================================================== *)

(** References to [Note] objects and the heap they live in. *)
Definition ref := nat.
Definition Heap := ref -> Note.

Definition write (r : ref) (n : Note) (h : Heap) : Heap :=
  fun r' => if Nat.eqb r' r then n else h r'.

(** [interface Modal]: [data] is a [Note] or [null]. *)
Record Modal := mkModal {
  type : jsstring;
  data : option ref
}.

(** [interface Form] *)
Record Form := mkForm {
  field_content : jsstring
}.

(** What the component holds between two events: the three [useState]
    values, the value of the form field [content], the object heap and
    the storage. *)
Record World := mkWorld {
  heap : Heap;
  notes : list ref;
  modal : Modal;
  markdownMode : bool;
  form : Form;
  localStorage : Storage
}.

(** The collection as the presentation layer reads it: the notes of the
    array, in order. *)
Definition list_notes (w : World) : list Note := List.map (heap w) (notes w).

Definition ids (l : list Note) : list jsstring := List.map id l.

(** What the environment hands to a handler: the result of [uuidv4()] and
    of [new Date().toISOString()]. *)
Record Env := mkEnv {
  uuid : jsstring;
  now : jsstring
}.

(** What a handler has done so far.  A state setter does not change the
    value the running closure sees: it queues the next value.  Writes to an
    object and [setValue] act at once. *)
Record Pending := mkPending {
  cur_heap : Heap;
  cur_form : Form;
  next_notes : option (list ref);
  next_modal : option Modal;
  next_markdownMode : option bool
}.

Inductive Completion (A : Type) :=
| Normal (a : A) (p : Pending)
| Throw (e : Error) (p : Pending).
Arguments Throw {A}.

(** A handler reads the environment and the state of the render that
    created it, and threads its effects. *)
Definition Handler (A : Type) : Type := Env -> World -> Pending -> Completion A.

Definition ret {A} (a : A) : Handler A := fun _ _ p => Normal a p.

Definition bind {A B} (m : Handler A) (k : A -> Handler B) : Handler B :=
  fun e w p =>
    match m e w p with
    | Normal a p' => k a e w p'
    | Throw err p' => Throw err p'
    end.

Definition throw {A} (err : Error) : Handler A := fun _ _ p => Throw err p.

Declare Scope handler_scope.
Delimit Scope handler_scope with handler.
Notation "x <- m ;; k" := (bind m (fun x => k))
  (at level 61, m at next level, right associativity) : handler_scope.
Notation "m ;; k" := (bind m (fun _ => k))
  (at level 61, right associativity) : handler_scope.
Local Open Scope handler_scope.

(** ** Primitives *)

Definition uuidv4 : Handler jsstring := fun e _ p => Normal (uuid e) p.
Definition new_Date_toISOString : Handler jsstring := fun e _ p => Normal (now e) p.

Definition use_notes : Handler (list ref) := fun _ w p => Normal (notes w) p.
Definition use_modal : Handler Modal := fun _ w p => Normal (modal w) p.

Definition setNotes (l : list ref) : Handler unit :=
  fun _ _ p => Normal tt (mkPending (cur_heap p) (cur_form p) (Some l)
                                    (next_modal p) (next_markdownMode p)).
Definition setModal (m : Modal) : Handler unit :=
  fun _ _ p => Normal tt (mkPending (cur_heap p) (cur_form p) (next_notes p)
                                    (Some m) (next_markdownMode p)).
Definition setMarkdownMode (b : bool) : Handler unit :=
  fun _ _ p => Normal tt (mkPending (cur_heap p) (cur_form p) (next_notes p)
                                    (next_modal p) (Some b)).

(** [setValue('content', s)] of react-hook-form. *)
Definition setValue_content (s : jsstring) : Handler unit :=
  fun _ _ p => Normal tt (mkPending (cur_heap p) (mkForm s) (next_notes p)
                                    (next_modal p) (next_markdownMode p)).

(** The values [handleSubmit] passes to its callback. *)
Definition form_values : Handler Form := fun _ _ p => Normal (cur_form p) p.

Definition set_heap (h : Heap) (p : Pending) : Pending :=
  mkPending h (cur_form p) (next_notes p) (next_modal p) (next_markdownMode p).

Definition opt_ref (r : option ref) : list ref :=
  match r with Some x => [x] | None => [] end.

(** The references a handler can still reach: those of the rendered state
    and those it has queued. *)
Definition live (w : World) (p : Pending) : list ref :=
  notes w ++ opt_ref (data (modal w))
  ++ match next_notes p with Some l => l | None => [] end
  ++ match next_modal p with Some m => opt_ref (data m) | None => [] end.

(** An object literal: a new object, distinct from every live one. *)
Definition new_object (n : Note) : Handler ref :=
  fun _ w p =>
    let r := S (list_max (live w p)) in
    Normal r (set_heap (write r n (cur_heap p)) p).

(** [r.id], [r.content], ... *)
Definition read (r : ref) : Handler Note := fun _ _ p => Normal (cur_heap p r) p.

(** [notes.find((note) => note.id === id)] *)
Definition find_by_id (i : maybe_string) (l : list ref) : Handler (option ref) :=
  fun _ _ p => Normal (List.find (fun note => strict_eq (id (cur_heap p note)) i) l) p.

(** [notes.filter((note) => note.id !== id)] *)
Definition filter_out_id (i : maybe_string) (l : list ref) : Handler (list ref) :=
  fun _ _ p =>
    Normal (List.filter (fun note => negb (strict_eq (id (cur_heap p note)) i)) l) p.

(** [o!.content = c]: a [TypeError] when [o] is [undefined]. *)
Definition assign_content (o : option ref) (c : jsstring) : Handler unit :=
  fun _ _ p =>
    match o with
    | None => Throw TypeError p
    | Some r =>
        let n := cur_heap p r in
        Normal tt (set_heap (write r (mkNote (id n) c (createdAt n) (updatedAt n))
                                   (cur_heap p)) p)
    end.

(** [o!.updatedAt = d] *)
Definition assign_updatedAt (o : option ref) (d : jsstring) : Handler unit :=
  fun _ _ p =>
    match o with
    | None => Throw TypeError p
    | Some r =>
        let n := cur_heap p r in
        Normal tt (set_heap (write r (mkNote (id n) (content n) (createdAt n) d)
                                   (cur_heap p)) p)
    end.

(** [o.content]: a [TypeError] when [o] is [null]. *)
Definition read_content (o : option ref) : Handler jsstring :=
  match o with
  | Some r => n <- read r ;; ret (content n)
  | None => throw TypeError
  end.

(** [newNotes.unshift(o!)], after the two assignments through [o]: they
    have thrown when [o] is [undefined], so this is reached with an object. *)
Definition unshift (o : option ref) (l : list ref) : Handler (list ref) :=
  match o with
  | Some r => ret (r :: l)
  | None => throw TypeError
  end.

(** ** The note store: lines 63-92 *)

Definition addNote (c : jsstring) : Handler unit :=
  date <- new_Date_toISOString ;;
  i <- uuidv4 ;;
  newNote <- new_object (mkNote i c date date) ;;
  l <- use_notes ;;
  setNotes (newNote :: l).

Definition editNote (i : maybe_string) (c : jsstring) : Handler unit :=
  l <- use_notes ;;
  noteToEdit <- find_by_id i l ;;
  assign_content noteToEdit c ;;
  date <- new_Date_toISOString ;;
  assign_updatedAt noteToEdit date ;;
  newNotes <- filter_out_id i l ;;
  newNotes' <- unshift noteToEdit newNotes ;;
  setNotes newNotes'.

Definition deleteNote (i : maybe_string) : Handler unit :=
  l <- use_notes ;;
  newNotes <- filter_out_id i l ;;
  setNotes newNotes.

(** ** The modal controller: lines 38-61 *)

Definition closed : Modal := mkModal (js "") None.

(** [modal.data?.id] *)
Definition optional_id (o : option ref) : Handler maybe_string :=
  match o with
  | Some r => n <- read r ;; ret (Some (id n))
  | None => ret None
  end.

Definition handleForm (d : Form) : Handler unit :=
  m <- use_modal ;;
  (if jsstring_eqb (type m) (js "ADD") then addNote (field_content d)
   else (i <- optional_id (data m) ;; editNote i (field_content d))) ;;
  setValue_content (js "") ;;
  setModal closed.

Definition handleAdd : Handler unit :=
  setModal (mkModal (js "ADD") None).

(** [handleEdit(data)]: reading [data.content] throws when [data] is [null]. *)
Definition handleEdit (d : option ref) : Handler unit :=
  c <- read_content d ;;
  setValue_content c ;;
  setModal (mkModal (js "EDIT") d).

Definition handleDelete (i : maybe_string) : Handler unit :=
  deleteNote i ;;
  setModal closed.

(** [handleSubmit(cb)] of react-hook-form: calls [cb] with the form values. *)
Definition handleSubmit (cb : Form -> Handler unit) : Handler unit :=
  d <- form_values ;;
  cb d.

(** ** Running a handler *)

Definition start (w : World) : Pending :=
  mkPending (heap w) (form w) None None None.

Definition effects {A} (c : Completion A) : Pending :=
  match c with
  | Normal _ p => p
  | Throw _ p => p
  end.

Definition or_else {A} (o : option A) (d : A) : A :=
  match o with Some a => a | None => d end.

(** The next render: queued values replace the state, and the effect of
    lines 28-30 runs when [notes] was set. *)
Definition commit (w : World) (p : Pending) : World :=
  mkWorld (cur_heap p)
          (or_else (next_notes p) (notes w))
          (or_else (next_modal p) (modal w))
          (or_else (next_markdownMode p) (markdownMode w))
          (cur_form p)
          (match next_notes p with
           | Some l => save (List.map (cur_heap p) l) (localStorage w)
           | None => localStorage w
           end).

Definition run {A} (h : Handler A) (e : Env) (w : World) : Completion A :=
  h e w (start w).

(** The state after a handler ran, whether it returned or threw. *)
Definition dispatch (h : Handler unit) (e : Env) (w : World) : World :=
  commit w (effects (run h e w)).

(** ** The rendered tree: which handler an element carries *)

Inductive Event :=
| ClickAdd                      (* line 127, the + button *)
| ClickCard (k : nat)           (* line 103, the card of notes[k] *)
| ClickFormOverlay              (* line 136 *)
| ClickCancel                   (* line 144 *)
| TypeContent (s : jsstring)    (* the user edits the textarea; the form stores s *)
| SubmitForm                    (* line 153 *)
| ClickViewOverlay              (* line 174 *)
| ToggleMarkdown (b : bool)     (* line 186 *)
| ClickClose                    (* line 193 *)
| ClickEdit                     (* line 210 *)
| ClickDelete.                  (* line 216 *)

Definition form_open (w : World) : bool :=
  jsstring_eqb (type (modal w)) (js "ADD") || jsstring_eqb (type (modal w)) (js "EDIT").

Definition view_open (w : World) : bool :=
  jsstring_eqb (type (modal w)) (js "VIEW").

(** The handler of an element, when the element is rendered.  The cards and
    the + button stay in the tree under an open modal.  The [required]
    attribute of the textarea is checked by the browser, not by a handler:
    every content is let through to [handleForm]. *)
Definition handler_of (ev : Event) (w : World) : option (Handler unit) :=
  match ev with
  | ClickAdd => Some handleAdd
  | ClickCard k =>
      match nth_error (notes w) k with
      | Some note => Some (setModal (mkModal (js "VIEW") (Some note)))
      | None => None
      end
  | ClickFormOverlay => if form_open w then Some (setModal closed) else None
  | ClickCancel =>
      if form_open w then Some (setModal closed ;; setValue_content (js "")) else None
  | TypeContent s => if form_open w then Some (setValue_content s) else None
  | SubmitForm => if form_open w then Some (handleSubmit handleForm) else None
  | ClickViewOverlay => if view_open w then Some (setModal closed) else None
  | ToggleMarkdown b => if view_open w then Some (setMarkdownMode b) else None
  | ClickClose => if view_open w then Some (setModal closed) else None
  | ClickEdit => if view_open w then Some (handleEdit (data (modal w))) else None
  | ClickDelete =>
      if view_open w
      then Some (i <- optional_id (data (modal w)) ;; handleDelete i)
      else None
  end.

Definition step (e : Env) (ev : Event) (w : World) : option World :=
  match handler_of ev w with
  | Some h => Some (dispatch h e w)
  | None => None
  end.

Definition empty_note : Note := mkNote [] [] [] [].

(** The first render with [l] as the loaded collection: lines 23-26, then
    the effect of lines 28-30.  The form field starts empty. *)
Definition mount (l : list Note) (s : Storage) : World :=
  mkWorld (fun r => nth r l empty_note) (seq 0 (List.length l)) closed true
          (mkForm (js "")) (save l s).

(** Start of the application on a storage: nothing is mounted when the
    initializer throws or the loaded value is not a [Note[]]. *)
Definition boot (s : Storage) : option World :=
  match load s with
  | Return v =>
      match as_notes v with
      | Some l => Some (mount l s)
      | None => None
      end
  | Raise _ => None
  end.

Inductive reachable : World -> Prop :=
| reachable_mount : forall l s, reachable (mount l s)
| reachable_step : forall w e ev w',
    reachable w -> step e ev w = Some w' -> reachable w'.

(** ** The store operations of the specification *)

Inductive Op :=
| Add (c : jsstring)
| Edit (i : jsstring) (c : jsstring)
| Delete (i : jsstring).

Definition op_handler (o : Op) : Handler unit :=
  match o with
  | Add c => addNote c
  | Edit i c => editNote (Some i) c
  | Delete i => deleteNote (Some i)
  end.

Definition apply_op (eo : Env * Op) (w : World) : World :=
  dispatch (op_handler (snd eo)) (fst eo) w.

Fixpoint apply_ops (l : list (Env * Op)) (w : World) : World :=
  match l with
  | [] => w
  | eo :: rest => apply_ops rest (apply_op eo w)
  end.

(** Every [add] of the sequence draws an id no note of the collection has
    at that moment. *)
Fixpoint fresh_ids (l : list (Env * Op)) (w : World) : Prop :=
  match l with
  | [] => True
  | eo :: rest =>
      match snd eo with
      | Add _ => ~ In (uuid (fst eo)) (ids (list_notes w))
      | _ => True
      end /\ fresh_ids rest (apply_op eo w)
  end.

(** ** Auxiliary definitions *)

(** The notes of a collection whose id is not [i]. *)
Definition others (i : jsstring) (l : list Note) : list Note :=
  List.filter (fun n => negb (jsstring_eqb (id n) i)) l.

(** The heap after the two assignments of [editNote] through [r]. *)
Definition edited (r : ref) (c d : jsstring) (h : Heap) : Heap :=
  let h1 := write r (mkNote (id (h r)) c (createdAt (h r)) (updatedAt (h r))) h in
  write r (mkNote (id (h1 r)) (content (h1 r)) (createdAt (h1 r)) d) h1.

(** The four shapes of the modal state. *)
Definition modal_ok (m : Modal) : Prop :=
  (type m = js "" /\ data m = None)
  \/ (type m = js "ADD" /\ data m = None)
  \/ (type m = js "EDIT" /\ data m <> None)
  \/ (type m = js "VIEW" /\ data m <> None).

(** The note the modal shows or edits is a note of the array. *)
Definition selection_held (w : World) : Prop :=
  forall r, data (modal w) = Some r -> In r (notes w).

(** Event [ev] is enabled in [w] and leads to a state with the modal
    closed that satisfies [P]. *)
Definition closes (e : Env) (ev : Event) (w : World) (P : World -> Prop) : Prop :=
  exists w', step e ev w = Some w' /\ modal w' = closed /\ P w'.

(** The [notes] slot holds the serialization of the current collection. *)
Definition mirrored (w : World) : Prop :=
  getItem (js "notes") (localStorage w) = Some (stringify (list_notes w)).

(** ** Sample states *)

Definition no_storage : Storage := fun _ => None.
Definition sample_env : Env := mkEnv (js "u-1") (js "2024-01-01T00:00:00.000Z").

Definition note_A : Note :=
  mkNote (js "1") (js "first") (js "2024-01-01T00:00:00.000Z") (js "2024-01-01T00:00:00.000Z").
Definition note_B : Note :=
  mkNote (js "2") (js "second") (js "2023-12-31T00:00:00.000Z") (js "2023-12-31T00:00:00.000Z").
Definition note_A2 : Note :=
  mkNote (js "1") (js "twin") (js "2023-06-01T00:00:00.000Z") (js "2023-06-01T00:00:00.000Z").

Definition two_notes : World := mount [note_A; note_B] no_storage.

Definition later_env : Env := mkEnv (js "u-2") (js "2024-02-02T10:00:00.000Z").

Definition sample_ops : list (Env * Op) :=
  [(sample_env, Add (js "hello"));
   (later_env, Edit (js "1") (js "new text"));
   (later_env, Delete (js "2"));
   (later_env, Edit (js "2") (js "gone"));
   (later_env, Add (js "again"))].

(** A note whose content holds a surrogate pair, a lone leading and a lone
    trailing surrogate, control characters, a quotation mark and a
    backslash. *)
Definition note_C : Note :=
  mkNote (js "3")
         ([55357; 56832; 55357; 10; 34; 92; 57000; 9; 0; 8232; 65535]%N ++ js "# title")
         (js "2024-03-03T00:00:00.000Z") (js "2024-03-04T00:00:00.000Z").

(** Storages whose [notes] slot holds the empty string, and a truncated
    array. *)
Definition empty_slot : Storage := setItem (js "notes") (js "") no_storage.
Definition truncated_slot : Storage := setItem (js "notes") (js "[1, 2") no_storage.

(** A state no run of the component produces: the modal edits a note the
    array does not hold. *)
Definition stale_world : World :=
  mkWorld (fun _ => note_A) [] (mkModal (js "EDIT") (Some 0)) true
          (mkForm (js "draft")) no_storage.

(** The edit form on the second of two notes, with a draft typed in. *)
Definition editing_world : World :=
  mkWorld (fun r => nth r [note_A; note_B] empty_note) [0; 1]
          (mkModal (js "EDIT") (Some 1)) true (mkForm (js "draft")) no_storage.

(** The view modal on the first of two notes. *)
Definition viewing_world : World :=
  mkWorld (fun r => nth r [note_A; note_B] empty_note) [0; 1]
          (mkModal (js "VIEW") (Some 0)) true (mkForm (js "")) no_storage.

(** One note loaded, then its card clicked. *)
Definition after_card_click : World :=
  dispatch (setModal (mkModal (js "VIEW") (Some 0))) sample_env
           (mount [note_A] no_storage).

(** The add form with a draft typed in. *)
Definition drafting_world : World :=
  mkWorld (fun _ => note_A) [0] (mkModal (js "ADD") None) true
          (mkForm (js "draft")) no_storage.

(* ===================================================================== *)
(** * What the component shows: lines 94-225                              *)
(* ===================================================================== *)

(** [s.slice(0, n)]: the first [n] code units of [s]. *)
Definition slice0 (n : nat) (s : jsstring) : jsstring := firstn n s.

(** Line 112: the text of a card,
    [content.length < 100 ? content : content.slice(0, 100)]. *)
Definition card_text (c : jsstring) : jsstring :=
  if Nat.ltb (List.length c) 100 then c else slice0 100 c.

(** Line 114: whether the three dots follow, [content.length > 100]. *)
Definition card_dots (c : jsstring) : bool := Nat.ltb 100 (List.length c).





(** ** Sequences of user actions *)

(** The actions of [l] in turn; nothing when one of them aims at an element
    that is not rendered. *)
Fixpoint run_events (l : list (Env * Event)) (w : World) : option World :=
  match l with
  | [] => Some w
  | (e, ev) :: rest =>
      match step e ev w with
      | Some w' => run_events rest w'
      | None => None
      end
  end.

(** Every submit of the add form in the sequence draws an id no note of the
    collection has at that moment. *)
Fixpoint fresh_uuids (l : list (Env * Event)) (w : World) : Prop :=
  match l with
  | [] => True
  | (e, ev) :: rest =>
      match ev with
      | SubmitForm =>
          type (modal w) = js "ADD" -> ~ In (uuid e) (ids (list_notes w))
      | _ => True
      end
      /\ match step e ev w with
         | Some w' => fresh_uuids rest w'
         | None => True
         end
  end.

(** Where a note of the final collection got its [id] and [createdAt]: from
    a note of the initial collection, or from an [add] of the sequence. *)
Definition from_initial (w : World) (n' : Note) : Prop :=
  exists n, In n (list_notes w) /\ id n = id n' /\ createdAt n = createdAt n'.

Definition from_add (ops : list (Env * Op)) (n' : Note) : Prop :=
  exists e c, In (e, Add c) ops /\ id n' = uuid e /\ createdAt n' = now e.

(** No operation of the sequence edits or deletes the id [i]. *)
Definition untouched (i : jsstring) (ops : list (Env * Op)) : Prop :=
  forall e o, In (e, o) ops ->
    match o with
    | Add _ => True
    | Edit j _ => j <> i
    | Delete j => j <> i
    end.

(** In [l], note [a] comes before note [b]. *)
Definition before (a b : Note) (l : list Note) : Prop :=
  exists l1 l2 l3, l = l1 ++ a :: l2 ++ b :: l3.

(** ** More sample states *)

Definition third_env : Env := mkEnv (js "u-3") (js "2024-03-03T12:00:00.000Z").


(** Two notes of the same id around a third one. *)
Definition twins : World := mount [note_A; note_B; note_A2] no_storage.

(** Add a note, edit the one now second, delete the one now third. *)
Definition sample_events : list (Env * Event) :=
  [(sample_env, ClickAdd); (sample_env, TypeContent (js "hello"));
   (sample_env, SubmitForm);
   (later_env, ClickCard 1); (later_env, ClickEdit);
   (later_env, TypeContent (js "new text")); (later_env, SubmitForm);
   (third_env, ClickCard 2); (third_env, ToggleMarkdown false);
   (third_env, ClickDelete)].

(** Three notes, and operations that leave the second and the third alone. *)
Definition three_notes : World := mount [note_A; note_B; note_C] no_storage.

Definition quiet_ops : list (Env * Op) :=
  [(sample_env, Add (js "hello"));
   (later_env, Edit (js "1") (js "new text"));
   (third_env, Delete (js "9"));
   (third_env, Delete (js "u-1"))].

(** Ninety-nine letters, then a surrogate pair and two more letters. *)
Definition ninety_nine : jsstring := List.repeat 97%N 99.

Unset Implicit Arguments.

(* ===================================================================== *)
(** * Strings and lists                                                   *)
(* ===================================================================== *)

Lemma jsstring_eqb_eq (a b : jsstring) : jsstring_eqb a b = true <-> a = b.
Proof.
  revert b; induction a as [|x a IH]; intros [|y b]; simpl; split; intro H;
    try reflexivity; try discriminate.
  - apply andb_true_iff in H as [Hx Hr]. apply N.eqb_eq in Hx.
    apply IH in Hr. now subst.
  - injection H as -> ->. rewrite N.eqb_refl. simpl. now apply IH.
Qed.

Lemma jsstring_eqb_refl (a : jsstring) : jsstring_eqb a a = true.
Proof. now apply jsstring_eqb_eq. Qed.

Lemma jsstring_eqb_neq (a b : jsstring) : jsstring_eqb a b = false <-> a <> b.
Proof.
  split.
  - intros H E. apply jsstring_eqb_eq in E. congruence.
  - intro H. destruct (jsstring_eqb a b) eqn:E; [|reflexivity].
    apply jsstring_eqb_eq in E. contradiction.
Qed.

Lemma jsstring_ltb_irrefl (a : jsstring) : jsstring_ltb a a = false.
Proof.
  induction a as [|x a IH]; simpl; [reflexivity|].
  rewrite N.ltb_irrefl, N.eqb_refl. exact IH.
Qed.

Lemma others_absent (i : jsstring) (l : list Note) :
  ~ In i (ids l) -> others i l = l.
Proof.
  induction l as [|n l IH]; simpl; intro H; [reflexivity|].
  destruct (jsstring_eqb (id n) i) eqn:E; simpl.
  - apply jsstring_eqb_eq in E. exfalso. apply H. now left.
  - f_equal. apply IH. intro Hin. apply H. now right.
Qed.

Lemma others_ids (i : jsstring) (l : list Note) : ~ In i (ids (others i l)).
Proof.
  unfold others, ids. intro H. apply in_map_iff in H as (n & Hn & Hin).
  apply filter_In in Hin as [_ Hf]. subst i.
  rewrite jsstring_eqb_refl in Hf. discriminate.
Qed.

Lemma others_NoDup (i : jsstring) (l : list Note) :
  NoDup (ids l) -> NoDup (ids (others i l)).
Proof.
  induction l as [|n l IH]; simpl; intro H; [constructor|].
  inversion H as [|? ? Hn Hl]; subst.
  destruct (jsstring_eqb (id n) i); simpl; [now apply IH|].
  constructor; [|now apply IH].
  intro Hin. apply Hn. unfold ids, others in *.
  apply in_map_iff in Hin as (m & Hm & Hin). apply filter_In in Hin as [Hin _].
  apply in_map_iff. now exists m.
Qed.

(** With distinct ids, the note of id [i] splits the collection, and the
    others are what is on both sides of it. *)
Lemma others_split (i : jsstring) (l : list Note) :
  NoDup (ids l) -> In i (ids l) ->
  exists l1 n l2, l = l1 ++ n :: l2 /\ id n = i /\ others i l = l1 ++ l2.
Proof.
  induction l as [|m l IH]; simpl; intros Hnd Hin; [contradiction|].
  inversion Hnd as [|? ? Hm Hl]; subst.
  destruct (jsstring_eqb (id m) i) eqn:E; simpl.
  - apply jsstring_eqb_eq in E. exists [], m, l. repeat split; trivial.
    simpl. apply others_absent. now rewrite <- E.
  - apply jsstring_eqb_neq in E. destruct Hin as [Hin|Hin]; [contradiction|].
    destruct (IH Hl Hin) as (l1 & n & l2 & -> & Hid & Ho).
    exists (m :: l1), n, l2. repeat split; trivial. simpl. now rewrite Ho.
Qed.

Lemma find_id_present (i : jsstring) (l : list Note) :
  In i (ids l) ->
  exists n, List.find (fun n => jsstring_eqb (id n) i) l = Some n /\ id n = i /\ In n l.
Proof.
  induction l as [|m l IH]; simpl; intro Hin; [contradiction|].
  destruct (jsstring_eqb (id m) i) eqn:E.
  - apply jsstring_eqb_eq in E. exists m. auto.
  - apply jsstring_eqb_neq in E. destruct Hin as [Hin|Hin]; [contradiction|].
    destruct (IH Hin) as (n & Hf & Hid & Hn). exists n. auto.
Qed.

Lemma find_id_absent (i : jsstring) (l : list Note) :
  ~ In i (ids l) -> List.find (fun n => jsstring_eqb (id n) i) l = None.
Proof.
  induction l as [|m l IH]; simpl; intro H; [reflexivity|].
  destruct (jsstring_eqb (id m) i) eqn:E.
  - apply jsstring_eqb_eq in E. exfalso. apply H. now left.
  - apply IH. intro Hin. apply H. now right.
Qed.

(* ===================================================================== *)
(** * The heap                                                            *)
(* ===================================================================== *)

Lemma write_same (r : ref) (n : Note) (h : Heap) : write r n h r = n.
Proof. unfold write. now rewrite Nat.eqb_refl. Qed.

Lemma write_other (r r' : ref) (n : Note) (h : Heap) :
  r' <> r -> write r n h r' = h r'.
Proof. unfold write. intro H. apply Nat.eqb_neq in H. now rewrite H. Qed.

Lemma in_le_list_max (r : ref) (l : list ref) : In r l -> r <= list_max l.
Proof.
  intro H. assert (F : Forall (fun k => k <= list_max l) l)
    by (apply list_max_le; lia).
  rewrite Forall_forall in F. now apply F.
Qed.

(** A new object is none of the objects of the array. *)
Lemma map_write_fresh (w : World) (p : Pending) (n : Note) (h : Heap) :
  List.map (write (S (list_max (live w p))) n h) (notes w) = List.map h (notes w).
Proof.
  apply map_ext_in. intros r Hr. apply write_other.
  assert (r <= list_max (live w p)); [|lia].
  apply in_le_list_max. unfold live. apply in_or_app. now left.
Qed.

Lemma commit_start (w : World) : commit w (start w) = w.
Proof. destruct w. reflexivity. Qed.

Lemma map_nth_seq (l : list Note) :
  List.map (fun r => nth r l empty_note) (seq 0 (List.length l)) = l.
Proof.
  induction l as [|x l IH] using rev_ind; [reflexivity|].
  rewrite length_app, seq_app, map_app. simpl. f_equal.
  - rewrite <- IH at 2. apply map_ext_in. intros r Hr.
    apply in_seq in Hr. apply app_nth1. lia.
  - rewrite app_nth2, Nat.sub_diag by lia. reflexivity.
Qed.

Lemma list_notes_mount (l : list Note) (s : Storage) : list_notes (mount l s) = l.
Proof. unfold list_notes, mount. simpl. apply map_nth_seq. Qed.

(* ===================================================================== *)
(** * The note store                                                      *)
(* ===================================================================== *)

Lemma addNote_run (c : jsstring) (e : Env) (w : World) :
  exists p, run (addNote c) e w = Normal tt p.
Proof. eexists. reflexivity. Qed.

Lemma addNote_list (c : jsstring) (e : Env) (w : World) :
  list_notes (dispatch (addNote c) e w)
  = mkNote (uuid e) c (now e) (now e) :: list_notes w.
Proof.
  unfold list_notes, dispatch, run, addNote. simpl.
  rewrite write_same. f_equal. apply (map_write_fresh w (start w)).
Qed.

Lemma map_filter_heap (h : Heap) (i : maybe_string) (l : list ref) :
  List.map h (List.filter (fun r => negb (strict_eq (id (h r)) i)) l)
  = List.filter (fun n => negb (strict_eq (id n) i)) (List.map h l).
Proof.
  induction l as [|r l IH]; simpl; [reflexivity|].
  destruct (negb (strict_eq (id (h r)) i)); simpl; now rewrite IH.
Qed.

Lemma deleteNote_run (i : maybe_string) (e : Env) (w : World) :
  exists p, run (deleteNote i) e w = Normal tt p.
Proof. eexists. reflexivity. Qed.

Lemma deleteNote_list (i : jsstring) (e : Env) (w : World) :
  list_notes (dispatch (deleteNote (Some i)) e w) = others i (list_notes w).
Proof.
  unfold list_notes, dispatch, run, deleteNote. simpl.
  apply (map_filter_heap (heap w) (Some i)).
Qed.

Lemma find_map_heap (h : Heap) (i : jsstring) (l : list ref) :
  List.find (fun n => jsstring_eqb (id n) i) (List.map h l)
  = option_map h (List.find (fun r => strict_eq (id (h r)) (Some i)) l).
Proof.
  induction l as [|r l IH]; simpl; [reflexivity|].
  destruct (jsstring_eqb (id (h r)) i); simpl; [reflexivity|exact IH].
Qed.

Lemma edited_same (r : ref) (c d : jsstring) (h : Heap) :
  edited r c d h r = mkNote (id (h r)) c (createdAt (h r)) d.
Proof. unfold edited. now rewrite !write_same. Qed.

Lemma edited_other (r r' : ref) (c d : jsstring) (h : Heap) :
  r' <> r -> edited r c d h r' = h r'.
Proof. intro H. unfold edited. now rewrite !write_other. Qed.

Lemma edited_id (r r' : ref) (c d : jsstring) (h : Heap) :
  id (edited r c d h r') = id (h r').
Proof.
  destruct (Nat.eq_dec r' r) as [->|H].
  - now rewrite edited_same.
  - now rewrite edited_other.
Qed.

Lemma editNote_found (i : jsstring) (c : jsstring) (e : Env) (w : World) (r : ref) :
  List.find (fun note => strict_eq (id (heap w note)) (Some i)) (notes w) = Some r ->
  run (editNote (Some i) c) e w
  = Normal tt
      (mkPending (edited r c (now e) (heap w)) (form w)
         (Some (r :: List.filter
                       (fun note => negb (strict_eq (id (edited r c (now e) (heap w) note)) (Some i)))
                       (notes w)))
         None None).
Proof.
  intro H. unfold run, editNote, bind, use_notes, find_by_id.
  simpl in H |- *. rewrite H. reflexivity.
Qed.

Lemma editNote_not_found (i : maybe_string) (c : jsstring) (e : Env) (w : World) :
  List.find (fun note => strict_eq (id (heap w note)) i) (notes w) = None ->
  run (editNote i c) e w = Throw TypeError (start w).
Proof.
  intro H. unfold run, editNote, bind, use_notes, find_by_id. simpl.
  rewrite H. reflexivity.
Qed.

(** [edit] on an id no note has throws before anything is written. *)
Lemma editNote_absent (i c : jsstring) (e : Env) (w : World) :
  ~ In i (ids (list_notes w)) ->
  run (editNote (Some i) c) e w = Throw TypeError (start w).
Proof.
  intro H. apply editNote_not_found.
  apply find_id_absent in H. unfold list_notes in H.
  rewrite find_map_heap in H.
  destruct (List.find _ (notes w)); [discriminate|reflexivity].
Qed.

(** [edit] on an id some note has: the first such note, rewritten, comes
    first, followed by the notes of every other id. *)
Lemma editNote_present (i c : jsstring) (e : Env) (w : World) :
  In i (ids (list_notes w)) ->
  exists n p,
    List.find (fun n => jsstring_eqb (id n) i) (list_notes w) = Some n
    /\ id n = i
    /\ run (editNote (Some i) c) e w = Normal tt p
    /\ list_notes (dispatch (editNote (Some i) c) e w)
       = mkNote i c (createdAt n) (now e) :: others i (list_notes w).
Proof.
  intro Hin. destruct (find_id_present _ _ Hin) as (n & Hf & Hid & _).
  unfold list_notes in Hf. rewrite find_map_heap in Hf.
  destruct (List.find _ (notes w)) as [r|] eqn:Hr; [|discriminate].
  simpl in Hf. injection Hf as Hn.
  exists n. eexists. split; [|split; [exact Hid|split]].
  - unfold list_notes. rewrite find_map_heap, Hr. simpl. now rewrite Hn.
  - exact (editNote_found i c e w r Hr).
  - unfold dispatch. rewrite (editNote_found i c e w r Hr).
    unfold list_notes. simpl. rewrite edited_same, Hn, Hid. f_equal.
    rewrite (filter_ext _ (fun note => negb (strict_eq (id (heap w note)) (Some i))))
      by (intro a; now rewrite edited_id).
    unfold others.
    change (fun n : Note => negb (jsstring_eqb (id n) i))
      with (fun n : Note => negb (strict_eq (id n) (Some i))).
    rewrite <- (map_filter_heap (heap w) (Some i)).
    apply map_ext_in. intros a Ha. apply edited_other.
    apply filter_In in Ha as [_ Ha]. intros ->.
    simpl in Ha. rewrite Hn, Hid, jsstring_eqb_refl in Ha. discriminate.
Qed.

Lemma find_unique (i : jsstring) (l1 l2 : list Note) (n : Note) :
  NoDup (ids (l1 ++ n :: l2)) -> id n = i ->
  List.find (fun m => jsstring_eqb (id m) i) (l1 ++ n :: l2) = Some n.
Proof.
  induction l1 as [|m l1 IH]; simpl; intros Hnd Hid.
  - now rewrite Hid, jsstring_eqb_refl.
  - inversion Hnd as [|? ? Hm Hl]; subst.
    destruct (jsstring_eqb (id m) (id n)) eqn:E; [|now apply IH].
    apply jsstring_eqb_eq in E. exfalso. apply Hm. rewrite E.
    unfold ids. rewrite map_app. apply in_or_app. right. now left.
Qed.

Lemma dispatch_throw_at_start (h : Handler unit) (e : Env) (w : World) (err : Error) :
  run h e w = Throw err (start w) -> dispatch h e w = w.
Proof. intro H. unfold dispatch. rewrite H. apply commit_start. Qed.

Lemma apply_op_NoDup (eo : Env * Op) (w : World) :
  NoDup (ids (list_notes w)) ->
  match snd eo with
  | Add _ => ~ In (uuid (fst eo)) (ids (list_notes w))
  | _ => True
  end ->
  NoDup (ids (list_notes (apply_op eo w))).
Proof.
  destruct eo as [e [c|i c|i]]; unfold apply_op; cbn [fst snd op_handler];
    intros Hnd Hfresh.
  - rewrite addNote_list. simpl. now constructor.
  - destruct (in_dec (list_eq_dec N.eq_dec) i (ids (list_notes w))) as [Hin|Hout].
    + destruct (editNote_present _ c e w Hin) as (n & p & _ & _ & _ & ->).
      simpl. constructor; [apply others_ids | now apply others_NoDup].
    + rewrite (dispatch_throw_at_start _ _ _ _ (editNote_absent _ c e w Hout)). exact Hnd.
  - rewrite deleteNote_list. now apply others_NoDup.
Qed.

(* ===================================================================== *)
(** * Properties of the note store                                        *)
(* ===================================================================== *)

(** C1. Starting from a collection whose ids are pairwise distinct, every
    sequence of add, edit and delete operations in which each add draws a
    fresh id leaves a collection whose ids are pairwise distinct. *)
Theorem ids_stay_distinct (ops : list (Env * Op)) (w : World) :
  NoDup (ids (list_notes w)) ->
  fresh_ids ops w ->
  NoDup (ids (list_notes (apply_ops ops w))).
Proof.
  revert w. induction ops as [|eo ops IH]; simpl; intros w Hnd Hfresh.
  - exact Hnd.
  - destruct Hfresh as [Hnow Hlater].
    apply IH; [|exact Hlater]. now apply apply_op_NoDup.
Qed.

(** C2. [add(c)] always returns; afterwards the collection is the new note
    followed by the notes that were there, in their order; the new note is
    at index 0, carries [c], and its [createdAt] equals its [updatedAt]. *)
Theorem add_puts_new_note_first (w : World) (e : Env) (c : jsstring) :
  (exists p, run (addNote c) e w = Normal tt p)
  /\ exists n,
       nth_error (list_notes (dispatch (addNote c) e w)) 0 = Some n
       /\ list_notes (dispatch (addNote c) e w) = n :: list_notes w
       /\ content n = c /\ id n = uuid e
       /\ createdAt n = now e /\ createdAt n = updatedAt n.
Proof.
  split; [apply addNote_run|].
  exists (mkNote (uuid e) c (now e) (now e)).
  rewrite addNote_list. simpl. repeat split.
Qed.

(** C3, as amended.  On a collection with pairwise distinct ids that holds a
    note of id [i], [edit(i, c2)] returns; the note comes first with content
    [c2] and [updatedAt] the current time, so that [updatedAt] is after
    [createdAt] exactly when the current time is; the other notes follow in
    their order, and the length is unchanged. *)
Theorem edit_moves_note_first (w : World) (e : Env) (i c2 : jsstring) :
  NoDup (ids (list_notes w)) ->
  In i (ids (list_notes w)) ->
  exists l1 n l2 n',
    list_notes w = l1 ++ n :: l2 /\ id n = i
    /\ (exists p, run (editNote (Some i) c2) e w = Normal tt p)
    /\ list_notes (dispatch (editNote (Some i) c2) e w) = n' :: l1 ++ l2
    /\ id n' = i /\ content n' = c2
    /\ createdAt n' = createdAt n /\ updatedAt n' = now e
    /\ jsstring_ltb (createdAt n') (updatedAt n') = jsstring_ltb (createdAt n) (now e)
    /\ List.length (list_notes (dispatch (editNote (Some i) c2) e w))
       = List.length (list_notes w).
Proof.
  intros Hnd Hin.
  destruct (others_split _ _ Hnd Hin) as (l1 & n & l2 & Hsplit & Hid & Hothers).
  destruct (editNote_present _ c2 e w Hin) as (n0 & p & Hfind & _ & Hrun & Hlist).
  assert (n0 = n) as ->.
  { rewrite Hsplit in Hfind, Hnd. rewrite (find_unique _ _ _ _ Hnd Hid) in Hfind.
    congruence. }
  exists l1, n, l2, (mkNote i c2 (createdAt n) (now e)).
  rewrite Hlist, Hothers, Hsplit. simpl.
  repeat split; eauto.
  rewrite !length_app. simpl. lia.
Qed.

(** C5. On a collection with pairwise distinct ids, [delete(i)] returns;
    when a note has id [i], exactly that note is removed and the length
    decreases by one; when none has, the collection is the same; the
    remaining notes are unchanged and keep their order. *)
Theorem delete_removes_that_note_only (w : World) (e : Env) (i : jsstring) :
  NoDup (ids (list_notes w)) ->
  (exists p, run (deleteNote (Some i)) e w = Normal tt p)
  /\ (In i (ids (list_notes w)) ->
      exists l1 n l2,
        list_notes w = l1 ++ n :: l2 /\ id n = i
        /\ list_notes (dispatch (deleteNote (Some i)) e w) = l1 ++ l2
        /\ S (List.length (list_notes (dispatch (deleteNote (Some i)) e w)))
           = List.length (list_notes w))
  /\ (~ In i (ids (list_notes w)) ->
      list_notes (dispatch (deleteNote (Some i)) e w) = list_notes w).
Proof.
  intro Hnd. split; [apply deleteNote_run|]. rewrite deleteNote_list. split.
  - intro Hin.
    destruct (others_split _ _ Hnd Hin) as (l1 & n & l2 & Hsplit & Hid & Hothers).
    exists l1, n, l2. rewrite Hothers, Hsplit, !length_app. simpl.
    repeat split; trivial; lia.
  - apply others_absent.
Qed.

(** C8. When some note has id [i], [edit(i, c2)] rewrites the first such
    note: its [id] and [createdAt] stay, its [content] becomes [c2] and its
    [updatedAt] the current time.  The notes behind it are the notes of
    every other id, each with all its fields, in their order; with pairwise
    distinct ids these are all the other notes. *)
Theorem edit_changes_content_and_updatedAt_only (w : World) (e : Env) (i c2 : jsstring) :
  In i (ids (list_notes w)) ->
  exists n n' rest,
    List.find (fun m => jsstring_eqb (id m) i) (list_notes w) = Some n
    /\ list_notes (dispatch (editNote (Some i) c2) e w) = n' :: rest
    /\ id n' = id n /\ createdAt n' = createdAt n
    /\ content n' = c2 /\ updatedAt n' = now e
    /\ rest = others i (list_notes w)
    /\ (forall m, In m rest -> In m (list_notes w))
    /\ (NoDup (ids (list_notes w)) ->
        exists l1 l2, list_notes w = l1 ++ n :: l2 /\ rest = l1 ++ l2).
Proof.
  intro Hin.
  destruct (editNote_present _ c2 e w Hin) as (n & p & Hfind & Hid & _ & Hlist).
  exists n, (mkNote i c2 (createdAt n) (now e)), (others i (list_notes w)).
  simpl. repeat split; auto.
  - intros m Hm. unfold others in Hm. now apply filter_In in Hm as [Hm _].
  - intro Hnd.
    destruct (others_split _ _ Hnd Hin) as (l1 & n1 & l2 & Hsplit & Hid1 & Hothers).
    exists l1, l2. rewrite Hothers. split; [|reflexivity].
    rewrite Hsplit in Hfind, Hnd. rewrite (find_unique _ _ _ _ Hnd Hid1) in Hfind.
    injection Hfind as <-. exact Hsplit.
Qed.

(** Closed goals about the sample states are settled by evaluation. *)
Ltac distinct_ids :=
  vm_compute; repeat (constructor; [simpl; intuition discriminate|]); constructor.
Ltac has_id := vm_compute; auto 8.
Ltac lacks_id := vm_compute; intuition discriminate.

Lemma ids_stay_distinct_witness :
  NoDup (ids (list_notes two_notes))
  /\ fresh_ids sample_ops two_notes
  /\ NoDup (ids (list_notes (apply_ops sample_ops two_notes))).
Proof.
  assert (H1 : NoDup (ids (list_notes two_notes))) by distinct_ids.
  assert (H2 : fresh_ids sample_ops two_notes) by lacks_id.
  exact (conj H1 (conj H2 (ids_stay_distinct sample_ops two_notes H1 H2))).
Defined.

Lemma edit_moves_note_first_witness :
  NoDup (ids (list_notes two_notes))
  /\ In (js "2") (ids (list_notes two_notes))
  /\ exists l1 n l2 n',
       list_notes two_notes = l1 ++ n :: l2 /\ id n = js "2"
       /\ (exists p, run (editNote (Some (js "2")) (js "new text")) later_env two_notes
                     = Normal tt p)
       /\ list_notes (dispatch (editNote (Some (js "2")) (js "new text")) later_env two_notes)
          = n' :: l1 ++ l2
       /\ id n' = js "2" /\ content n' = js "new text"
       /\ createdAt n' = createdAt n /\ updatedAt n' = now later_env
       /\ jsstring_ltb (createdAt n') (updatedAt n')
          = jsstring_ltb (createdAt n) (now later_env)
       /\ List.length
            (list_notes (dispatch (editNote (Some (js "2")) (js "new text")) later_env two_notes))
          = List.length (list_notes two_notes).
Proof.
  assert (H1 : NoDup (ids (list_notes two_notes))) by distinct_ids.
  assert (H2 : In (js "2") (ids (list_notes two_notes))) by has_id.
  exact (conj H1 (conj H2
    (edit_moves_note_first two_notes later_env (js "2") (js "new text") H1 H2))).
Defined.

(** C3 as stated fails twice.  Edited at the instant it was created, a note
    gets an [updatedAt] equal to its [createdAt]; and where two notes share
    an id, editing that id shortens the collection. *)
Lemma edit_neither_strictly_later_nor_same_length :
  (In (js "1") (ids (list_notes (mount [note_A] no_storage)))
   /\ exists n',
        nth_error
          (list_notes (dispatch (editNote (Some (js "1")) (js "new text")) sample_env
                                (mount [note_A] no_storage))) 0 = Some n'
        /\ content n' = js "new text"
        /\ updatedAt n' = createdAt n'
        /\ jsstring_ltb (createdAt n') (updatedAt n') = false)
  /\ (In (js "1") (ids (list_notes (mount [note_A; note_B; note_A2] no_storage)))
      /\ List.length (list_notes (mount [note_A; note_B; note_A2] no_storage)) = 3
      /\ List.length
           (list_notes (dispatch (editNote (Some (js "1")) (js "new text")) later_env
                                 (mount [note_A; note_B; note_A2] no_storage))) = 2).
Proof.
  split.
  - split; [has_id|].
    exists (mkNote (js "1") (js "new text") (now sample_env) (now sample_env)).
    repeat split; vm_compute; reflexivity.
  - split; [has_id|]. split; vm_compute; reflexivity.
Qed.

Lemma delete_removes_that_note_only_witness :
  NoDup (ids (list_notes two_notes))
  /\ (exists p, run (deleteNote (Some (js "1"))) later_env two_notes = Normal tt p)
  /\ (In (js "1") (ids (list_notes two_notes)) ->
      exists l1 n l2,
        list_notes two_notes = l1 ++ n :: l2 /\ id n = js "1"
        /\ list_notes (dispatch (deleteNote (Some (js "1"))) later_env two_notes) = l1 ++ l2
        /\ S (List.length (list_notes (dispatch (deleteNote (Some (js "1"))) later_env two_notes)))
           = List.length (list_notes two_notes))
  /\ (~ In (js "1") (ids (list_notes two_notes)) ->
      list_notes (dispatch (deleteNote (Some (js "1"))) later_env two_notes)
      = list_notes two_notes).
Proof.
  assert (H1 : NoDup (ids (list_notes two_notes))) by distinct_ids.
  exact (conj H1 (delete_removes_that_note_only two_notes later_env (js "1") H1)).
Defined.

Lemma edit_changes_content_and_updatedAt_only_witness :
  In (js "2") (ids (list_notes two_notes))
  /\ exists n n' rest,
       List.find (fun m => jsstring_eqb (id m) (js "2")) (list_notes two_notes) = Some n
       /\ list_notes (dispatch (editNote (Some (js "2")) (js "new text")) later_env two_notes)
          = n' :: rest
       /\ id n' = id n /\ createdAt n' = createdAt n
       /\ content n' = js "new text" /\ updatedAt n' = now later_env
       /\ rest = others (js "2") (list_notes two_notes)
       /\ (forall m, In m rest -> In m (list_notes two_notes))
       /\ (NoDup (ids (list_notes two_notes)) ->
           exists l1 l2, list_notes two_notes = l1 ++ n :: l2 /\ rest = l1 ++ l2).
Proof.
  assert (H : In (js "2") (ids (list_notes two_notes))) by has_id.
  exact (conj H
    (edit_changes_content_and_updatedAt_only two_notes later_env (js "2") (js "new text") H)).
Defined.

(* ===================================================================== *)
(** * Editing an id that no note has                                      *)
(* ===================================================================== *)

Lemma handleForm_stale (w : World) (e : Env) (d : Form) (r : ref) :
  type (modal w) <> js "ADD" ->
  data (modal w) = Some r ->
  ~ In (id (heap w r)) (ids (list_notes w)) ->
  run (handleForm d) e w = Throw TypeError (start w).
Proof.
  intros Ht Hd Hout. apply jsstring_eqb_neq in Ht.
  unfold run, handleForm, bind, use_modal. rewrite Ht, Hd.
  unfold optional_id, bind, read, ret.
  change (editNote (Some (id (cur_heap (start w) r))) (field_content d) e w (start w))
    with (run (editNote (Some (id (heap w r))) (field_content d)) e w).
  now rewrite editNote_absent.
Qed.

(** C4, as amended.  When no note has id [i], [edit(i, c)] throws a
    [TypeError] and writes nothing: the collection, the modal and the form
    are what they were.  The submit handler in turn stops at that throw,
    before it resets the form and the modal, so the controller stays in
    the state it was in. *)
Theorem edit_missing_id_throws (w : World) (e : Env) (i c : jsstring) :
  ~ In i (ids (list_notes w)) ->
  run (editNote (Some i) c) e w = Throw TypeError (start w)
  /\ dispatch (editNote (Some i) c) e w = w
  /\ list_notes (dispatch (editNote (Some i) c) e w) = list_notes w
  /\ forall r d,
       type (modal w) <> js "ADD" -> data (modal w) = Some r -> id (heap w r) = i ->
       run (handleForm d) e w = Throw TypeError (start w)
       /\ dispatch (handleForm d) e w = w
       /\ modal (dispatch (handleForm d) e w) = modal w.
Proof.
  intro Hout.
  pose proof (editNote_absent i c e w Hout) as Hrun.
  pose proof (dispatch_throw_at_start _ e w _ Hrun) as Hsame.
  split; [exact Hrun|]. split; [exact Hsame|]. split; [now rewrite Hsame|].
  intros r d Ht Hd Hid. subst i.
  pose proof (handleForm_stale w e d r Ht Hd Hout) as Hthrow.
  pose proof (dispatch_throw_at_start _ e w _ Hthrow) as Hkept.
  split; [exact Hthrow|]. split; [exact Hkept|now rewrite Hkept].
Qed.

Lemma edit_missing_id_throws_witness :
  ~ In (js "1") (ids (list_notes stale_world))
  /\ run (editNote (Some (js "1")) (js "draft")) sample_env stale_world
     = Throw TypeError (start stale_world)
  /\ dispatch (editNote (Some (js "1")) (js "draft")) sample_env stale_world = stale_world
  /\ list_notes (dispatch (editNote (Some (js "1")) (js "draft")) sample_env stale_world)
     = list_notes stale_world
  /\ forall r d,
       type (modal stale_world) <> js "ADD" -> data (modal stale_world) = Some r ->
       id (heap stale_world r) = js "1" ->
       run (handleForm d) sample_env stale_world = Throw TypeError (start stale_world)
       /\ dispatch (handleForm d) sample_env stale_world = stale_world
       /\ modal (dispatch (handleForm d) sample_env stale_world) = modal stale_world.
Proof.
  assert (H : ~ In (js "1") (ids (list_notes stale_world))) by lacks_id.
  exact (conj H (edit_missing_id_throws stale_world sample_env (js "1") (js "draft") H)).
Defined.

(** C4 as stated fails: submitting the edit form for a note the collection
    does not hold throws, and the modal is still the edit form afterwards. *)
Lemma edit_missing_id_leaves_modal_open :
  ~ In (js "1") (ids (list_notes stale_world))
  /\ data (modal stale_world) = Some 0 /\ id (heap stale_world 0) = js "1"
  /\ run (handleSubmit handleForm) sample_env stale_world
     = Throw TypeError (start stale_world)
  /\ type (modal (dispatch (handleSubmit handleForm) sample_env stale_world)) = js "EDIT"
  /\ modal (dispatch (handleSubmit handleForm) sample_env stale_world) <> closed.
Proof.
  split; [lacks_id|]. repeat split; try reflexivity.
  vm_compute. discriminate.
Qed.

(* ===================================================================== *)
(** * The modal controller                                                *)
(* ===================================================================== *)

Lemma form_open_ADD (w : World) : type (modal w) = js "ADD" -> form_open w = true.
Proof. intro H. unfold form_open. rewrite H. reflexivity. Qed.

Lemma form_open_EDIT (w : World) : type (modal w) = js "EDIT" -> form_open w = true.
Proof. intro H. unfold form_open. rewrite H. reflexivity. Qed.


Lemma view_open_inv (w : World) : view_open w = true -> type (modal w) = js "VIEW".
Proof. unfold view_open. apply jsstring_eqb_eq. Qed.

(** Submitting the add form: [addNote] runs on the content of the form,
    then the form and the modal are reset. *)
Lemma submit_add (w : World) (e : Env) :
  type (modal w) = js "ADD" ->
  run (handleSubmit handleForm) e w
  = match run (addNote (field_content (form w))) e w with
    | Normal _ p =>
        Normal tt (mkPending (cur_heap p) (mkForm (js "")) (next_notes p)
                             (Some closed) (next_markdownMode p))
    | Throw err p => Throw err p
    end.
Proof.
  intro H. unfold run, handleSubmit, handleForm, bind, form_values, use_modal.
  rewrite H. reflexivity.
Qed.

(** Submitting the edit form: [editNote] runs on the id of the selected
    note and the content of the form; the resets follow if it returns. *)
Lemma submit_edit (w : World) (e : Env) :
  type (modal w) <> js "ADD" ->
  run (handleSubmit handleForm) e w
  = match run (editNote (option_map (fun r => id (heap w r)) (data (modal w)))
                        (field_content (form w))) e w with
    | Normal _ p =>
        Normal tt (mkPending (cur_heap p) (mkForm (js "")) (next_notes p)
                             (Some closed) (next_markdownMode p))
    | Throw err p => Throw err p
    end.
Proof.
  intro H. apply jsstring_eqb_neq in H.
  unfold run, handleSubmit, handleForm, bind, form_values, use_modal.
  rewrite H. destruct (data (modal w)) as [r|]; reflexivity.
Qed.

Lemma editNote_cases (i : maybe_string) (c : jsstring) (e : Env) (w : World) :
  run (editNote i c) e w = Throw TypeError (start w)
  \/ exists h l, run (editNote i c) e w = Normal tt (mkPending h (form w) (Some l) None None).
Proof.
  unfold run, editNote, bind, use_notes, find_by_id. simpl.
  destruct (List.find _ (notes w)) as [r|]; [right|left; reflexivity].
  eexists. eexists. reflexivity.
Qed.

(** After a submit, either the handler threw and nothing changed, or the
    modal is closed and the form is empty. *)
Lemma submit_outcome (w : World) (e : Env) :
  dispatch (handleSubmit handleForm) e w = w
  \/ (modal (dispatch (handleSubmit handleForm) e w) = closed
      /\ form (dispatch (handleSubmit handleForm) e w) = mkForm (js "")).
Proof.
  destruct (list_eq_dec N.eq_dec (type (modal w)) (js "ADD")) as [H|H].
  - right. unfold dispatch. rewrite (submit_add w e H). split; reflexivity.
  - unfold dispatch. rewrite (submit_edit w e H).
    destruct (editNote_cases (option_map (fun r => id (heap w r)) (data (modal w)))
                             (field_content (form w)) e w) as [Ht|(h & l & Hn)].
    + left. rewrite Ht. apply commit_start.
    + right. rewrite Hn. split; reflexivity.
Qed.

Lemma closed_ok : modal_ok closed.
Proof. left. split; reflexivity. Qed.

Lemma step_keeps_modal_ok (w w' : World) (e : Env) (ev : Event) :
  modal_ok (modal w) -> step e ev w = Some w' -> modal_ok (modal w').
Proof.
  intros Hok Hstep. unfold step in Hstep.
  destruct (handler_of ev w) as [h|] eqn:Hh; [|discriminate].
  injection Hstep as <-.
  destruct ev; simpl in Hh;
    try (destruct (form_open w) eqn:Hf; [|discriminate]);
    try (destruct (view_open w) eqn:Hv; [|discriminate]);
    try (destruct (nth_error (notes w) k) as [note|]; [|discriminate]);
    injection Hh as <-;
    try exact closed_ok; try exact Hok.
  - right; left. split; reflexivity.
  - right; right; right. split; [reflexivity|discriminate].
  - destruct (submit_outcome w e) as [-> | [-> _]]; [exact Hok|exact closed_ok].
  - apply view_open_inv in Hv.
    destruct (data (modal w)) as [r|] eqn:Hd.
    + right; right; left. split; [reflexivity|discriminate].
    + exact Hok.
  - destruct (data (modal w)); exact closed_ok.
Qed.

Lemma step_keeps_selection (w w' : World) (e : Env) (ev : Event) :
  selection_held w -> step e ev w = Some w' -> selection_held w'.
Proof.
  intros Hsel Hstep. unfold step in Hstep.
  destruct (handler_of ev w) as [h|] eqn:Hh; [|discriminate].
  injection Hstep as <-.
  destruct ev; simpl in Hh;
    try (destruct (form_open w) eqn:Hf; [|discriminate]);
    try (destruct (view_open w) eqn:Hv; [|discriminate]);
    try (destruct (nth_error (notes w) k) as [note|] eqn:Hk; [|discriminate]);
    injection Hh as <-;
    try (intros r Hr; discriminate Hr); try exact Hsel.
  - intros r Hr. injection Hr as <-. simpl. eapply nth_error_In. exact Hk.
  - destruct (submit_outcome w e) as [-> | [Hm _]]; [exact Hsel|].
    intros r Hr. rewrite Hm in Hr. discriminate.
  - destruct (data (modal w)) as [r|] eqn:Hd.
    + intros r' Hr'. injection Hr' as <-. simpl. now apply Hsel.
    + intros r Hr. unfold dispatch, run in Hr. simpl in Hr. rewrite Hd in Hr.
      discriminate.
  - destruct (data (modal w)); intros r' Hr'; discriminate Hr'.
Qed.

Lemma reachable_invariants (w : World) :
  reachable w -> modal_ok (modal w) /\ selection_held w.
Proof.
  induction 1 as [l s|w e ev w' _ [IHok IHsel] Hstep].
  - split; [exact closed_ok|]. intros r Hr. discriminate.
  - split; [eapply step_keeps_modal_ok|eapply step_keeps_selection]; eauto.
Qed.

(** C10. In every reachable state the modal type is one of the four
    strings [''], ['ADD'], ['EDIT'], ['VIEW']; [data] is a note exactly when
    the type is ['EDIT'] or ['VIEW'], and [null] exactly when it is [''] or
    ['ADD']. *)
Theorem modal_type_and_data (w : World) :
  reachable w ->
  (type (modal w) = js "" \/ type (modal w) = js "ADD"
   \/ type (modal w) = js "EDIT" \/ type (modal w) = js "VIEW")
  /\ (data (modal w) <> None <->
      (type (modal w) = js "EDIT" \/ type (modal w) = js "VIEW"))
  /\ (data (modal w) = None <->
      (type (modal w) = js "" \/ type (modal w) = js "ADD")).
Proof.
  intro Hr. destruct (reachable_invariants w Hr) as [Hok _].
  destruct Hok as [[Ht Hd]|[[Ht Hd]|[[Ht Hd]|[Ht Hd]]]]; rewrite Ht;
    (split; [auto|split; split; intro H; auto]);
    try (destruct H as [H|H]; discriminate H);
    try contradiction;
    try (rewrite Hd in H; now contradiction H).
Qed.

Lemma modal_type_and_data_witness :
  reachable after_card_click
  /\ (type (modal after_card_click) = js "" \/ type (modal after_card_click) = js "ADD"
      \/ type (modal after_card_click) = js "EDIT"
      \/ type (modal after_card_click) = js "VIEW")
  /\ (data (modal after_card_click) <> None <->
      (type (modal after_card_click) = js "EDIT"
       \/ type (modal after_card_click) = js "VIEW"))
  /\ (data (modal after_card_click) = None <->
      (type (modal after_card_click) = js ""
       \/ type (modal after_card_click) = js "ADD")).
Proof.
  assert (H : reachable after_card_click).
  { apply (@reachable_step (mount [note_A] no_storage) sample_env (ClickCard 0)).
    - apply reachable_mount.
    - reflexivity. }
  exact (conj H (modal_type_and_data after_card_click H)).
Defined.


(** C9, as amended.  Submitting the add form runs [add] on the content of
    the form; submitting the edit form on a note the collection holds runs
    [edit] on the id of that note and the content of the form; both close
    the modal and empty the form.  Cancel closes the modal and empties the
    form.  A click outside the form, Close and a click outside the view
    close the modal.  None of the dismissals touches the collection. *)
Theorem submit_and_dismiss_close_the_modal (w : World) (e : Env) :
  (type (modal w) = js "ADD" ->
   closes e SubmitForm w (fun w' =>
     (exists p, run (handleSubmit handleForm) e w = Normal tt p)
     /\ list_notes w' = list_notes (dispatch (addNote (field_content (form w))) e w)
     /\ form w' = mkForm (js "")))
  /\ (type (modal w) = js "EDIT" ->
      forall r, data (modal w) = Some r -> In (id (heap w r)) (ids (list_notes w)) ->
      closes e SubmitForm w (fun w' =>
        (exists p, run (handleSubmit handleForm) e w = Normal tt p)
        /\ list_notes w'
           = list_notes (dispatch (editNote (Some (id (heap w r)))
                                            (field_content (form w))) e w)
        /\ form w' = mkForm (js "")))
  /\ (type (modal w) = js "ADD" \/ type (modal w) = js "EDIT" ->
      closes e ClickCancel w (fun w' =>
        form w' = mkForm (js "") /\ list_notes w' = list_notes w)
      /\ closes e ClickFormOverlay w (fun w' => list_notes w' = list_notes w))
  /\ (type (modal w) = js "VIEW" ->
      closes e ClickClose w (fun w' => list_notes w' = list_notes w)
      /\ closes e ClickViewOverlay w (fun w' => list_notes w' = list_notes w)).
Proof.
  unfold closes, step. repeat split.
  - intro Ht. simpl. rewrite (form_open_ADD w Ht).
    eexists. split; [reflexivity|].
    unfold dispatch. rewrite (submit_add w e Ht). simpl.
    repeat split. eexists. reflexivity.
  - intros Ht r Hd Hin. simpl. rewrite (form_open_EDIT w Ht).
    eexists. split; [reflexivity|].
    assert (Hne : type (modal w) <> js "ADD") by (rewrite Ht; discriminate).
    destruct (editNote_present _ (field_content (form w)) e w Hin)
      as (n & p & _ & _ & Hrun & _).
    unfold dispatch. rewrite (submit_edit w e Hne), Hd. simpl. rewrite Hrun.
    repeat split. eexists. reflexivity.
  - simpl. replace (form_open w) with true
      by (destruct H as [H|H]; [now rewrite form_open_ADD|now rewrite form_open_EDIT]).
    eexists. repeat split.
  - simpl. replace (form_open w) with true
      by (destruct H as [H|H]; [now rewrite form_open_ADD|now rewrite form_open_EDIT]).
    eexists. repeat split.
  - simpl. unfold view_open. rewrite H. eexists. repeat split.
  - simpl. unfold view_open. rewrite H. eexists. repeat split.
Qed.

Lemma submit_and_dismiss_close_the_modal_witness :
  (type (modal drafting_world) = js "ADD"
   /\ closes sample_env SubmitForm drafting_world (fun w' =>
        (exists p, run (handleSubmit handleForm) sample_env drafting_world = Normal tt p)
        /\ list_notes w'
           = list_notes (dispatch (addNote (field_content (form drafting_world)))
                                  sample_env drafting_world)
        /\ form w' = mkForm (js "")))
  /\ (type (modal editing_world) = js "EDIT"
      /\ data (modal editing_world) = Some 1
      /\ In (id (heap editing_world 1)) (ids (list_notes editing_world))
      /\ closes later_env SubmitForm editing_world (fun w' =>
           (exists p, run (handleSubmit handleForm) later_env editing_world = Normal tt p)
           /\ list_notes w'
              = list_notes (dispatch (editNote (Some (id (heap editing_world 1)))
                                               (field_content (form editing_world)))
                                     later_env editing_world)
           /\ form w' = mkForm (js "")))
  /\ ((type (modal drafting_world) = js "ADD" \/ type (modal drafting_world) = js "EDIT")
      /\ closes sample_env ClickCancel drafting_world (fun w' =>
           form w' = mkForm (js "") /\ list_notes w' = list_notes drafting_world)
      /\ closes sample_env ClickFormOverlay drafting_world (fun w' =>
           list_notes w' = list_notes drafting_world))
  /\ (type (modal viewing_world) = js "VIEW"
      /\ closes sample_env ClickClose viewing_world (fun w' =>
           list_notes w' = list_notes viewing_world)
      /\ closes sample_env ClickViewOverlay viewing_world (fun w' =>
           list_notes w' = list_notes viewing_world)).
Proof.
  assert (Hadd : type (modal drafting_world) = js "ADD") by reflexivity.
  assert (Hedit : type (modal editing_world) = js "EDIT") by reflexivity.
  assert (Hdata : data (modal editing_world) = Some 1) by reflexivity.
  assert (Hin : In (id (heap editing_world 1)) (ids (list_notes editing_world)))
    by has_id.
  assert (Hview : type (modal viewing_world) = js "VIEW") by reflexivity.
  pose proof (submit_and_dismiss_close_the_modal drafting_world sample_env)
    as (Ta & _ & Tc & _).
  pose proof (submit_and_dismiss_close_the_modal editing_world later_env)
    as (_ & Tb & _ & _).
  pose proof (submit_and_dismiss_close_the_modal viewing_world sample_env)
    as (_ & _ & _ & Td).
  exact (conj (conj Hadd (Ta Hadd))
        (conj (conj Hedit (conj Hdata (conj Hin (Tb Hedit 1 Hdata Hin))))
        (conj (conj (or_introl Hadd) (Tc (or_introl Hadd)))
              (conj Hview (Td Hview))))).
Defined.

(** C9 as stated fails.  From the edit form on a note the collection does
    not hold, a submit throws and the modal stays the edit form with its
    draft.  And a click outside the add form closes the modal but keeps the
    draft in the form field, where Cancel empties it. *)
Lemma submit_on_missing_note_and_click_outside_fall_short :
  (type (modal stale_world) = js "EDIT"
   /\ exists w', step sample_env SubmitForm stale_world = Some w'
        /\ run (handleSubmit handleForm) sample_env stale_world
           = Throw TypeError (start stale_world)
        /\ type (modal w') = js "EDIT" /\ modal w' <> closed
        /\ form w' = mkForm (js "draft"))
  /\ (type (modal drafting_world) = js "ADD"
      /\ exists w', step sample_env ClickFormOverlay drafting_world = Some w'
           /\ modal w' = closed
           /\ form w' = mkForm (js "draft") /\ form w' <> mkForm (js "")).
Proof.
  split; (split; [reflexivity|]); eexists; (split; [reflexivity|]);
    repeat split; try reflexivity; vm_compute; discriminate.
Qed.

(* ===================================================================== *)
(** * JSON: what [parse] reads back from [stringify]                      *)
(* ===================================================================== *)

Section RoundTrip.
Local Open Scope N_scope.

Lemma hex_value_digit (d : N) : d < 16 -> hex_value (hex_digit d) = Some d.
Proof.
  intro H. unfold hex_value, hex_digit.
  destruct (N.ltb_spec d 10).
  - replace (48 <=? 48 + d) with true by (symmetry; apply N.leb_le; lia).
    replace (48 + d <=? 57) with true by (symmetry; apply N.leb_le; lia).
    cbn [andb]. f_equal. lia.
  - replace (48 <=? 87 + d) with true by (symmetry; apply N.leb_le; lia).
    replace (87 + d <=? 57) with false by (symmetry; apply N.leb_gt; lia).
    replace (97 <=? 87 + d) with true by (symmetry; apply N.leb_le; lia).
    replace (87 + d <=? 102) with true by (symmetry; apply N.leb_le; lia).
    cbn [andb]. f_equal. lia.
Qed.

Lemma hex4_escape (c : N) :
  c < 65536 ->
  hex4 (hex_digit ((c / 4096) mod 16)) (hex_digit ((c / 256) mod 16))
       (hex_digit ((c / 16) mod 16)) (hex_digit (c mod 16)) = Some c.
Proof.
  intro H. unfold hex4.
  rewrite !hex_value_digit by (apply N.mod_lt; discriminate).
  f_equal.
  assert (E1 : c / 16 / 16 = c / 256) by (now rewrite N.Div0.div_div).
  assert (E2 : c / 256 / 16 = c / 4096) by (now rewrite N.Div0.div_div).
  pose proof (N.div_mod c 16 ltac:(discriminate)) as H1.
  pose proof (N.div_mod (c / 16) 16 ltac:(discriminate)) as H2.
  pose proof (N.div_mod (c / 256) 16 ltac:(discriminate)) as H3.
  rewrite E1 in H2. rewrite E2 in H3.
  assert (H4 : c / 4096 < 16) by (apply N.Div0.div_lt_upper_bound; exact H).
  rewrite (N.mod_small (c / 4096) 16) by exact H4.
  lia.
Qed.

Lemma parse_escape (c : code_unit) (tail : jsstring) :
  valid_unit c ->
  parse_string_chars (UnicodeEscape c ++ tail) = push_unit c (parse_string_chars tail).
Proof.
  intro H. unfold UnicodeEscape. cbn [app parse_string_chars N.eqb Pos.eqb].
  now rewrite hex4_escape.
Qed.

Lemma parse_plain (c : code_unit) (tail : jsstring) :
  32 <= c -> c <> 34 -> c <> 92 ->
  parse_string_chars (c :: tail) = push_unit c (parse_string_chars tail).
Proof.
  intros H32 H34 H92. cbn [parse_string_chars].
  apply N.eqb_neq in H34, H92. rewrite H34, H92.
  replace (c <? 32) with false by (symmetry; apply N.ltb_ge; exact H32).
  reflexivity.
Qed.

Lemma parse_quote_unit (c : code_unit) (tail : jsstring) :
  valid_unit c ->
  parse_string_chars (quote_unit c ++ tail) = push_unit c (parse_string_chars tail).
Proof.
  intro H. unfold quote_unit.
  repeat match goal with
         | |- context [N.eqb c ?k] =>
             destruct (N.eqb_spec c k) as [->|?]; [reflexivity|]
         end.
  destruct (N.ltb_spec c 32) as [Hlt|Hge]; cbn [orb].
  - now apply parse_escape.
  - destruct (is_trailing_surrogate c).
    + now apply parse_escape.
    + now apply parse_plain.
Qed.

Lemma surrogate_plain (c : code_unit) :
  (is_leading_surrogate c || is_trailing_surrogate c)%bool = true ->
  32 <= c /\ c <> 34 /\ c <> 92.
Proof.
  unfold is_leading_surrogate, is_trailing_surrogate. intro H.
  apply orb_true_iff in H as [H|H]; apply andb_true_iff in H as [H1 H2];
    apply N.leb_le in H1, H2; lia.
Qed.

Lemma quote_chars_cons (c : code_unit) (rest : jsstring) :
  quote_chars (c :: rest)
  = if is_leading_surrogate c then
      match rest with
      | d :: rest' =>
          if is_trailing_surrogate d then c :: d :: quote_chars rest'
          else UnicodeEscape c ++ quote_chars rest
      | [] => UnicodeEscape c
      end
    else quote_unit c ++ quote_chars rest.
Proof. reflexivity. Qed.

(** A quoted string reads back as the string, whatever follows the closing
    quotation mark. *)
Lemma parse_quoted_chars (s : jsstring) :
  (forall tail, valid_string s ->
     parse_string_chars (quote_chars s ++ 34 :: tail) = Some (s, tail))
  /\ (forall c tail, valid_string (c :: s) ->
        parse_string_chars (quote_chars (c :: s) ++ 34 :: tail) = Some (c :: s, tail)).
Proof.
  induction s as [|d s [IHs IHds]].
  - split; [reflexivity|]. intros c tail Hv. inversion Hv as [|? ? Hc _]; subst.
    rewrite quote_chars_cons. destruct (is_leading_surrogate c).
    + now rewrite parse_escape.
    + now rewrite <- app_assoc, parse_quote_unit.
  - split; [exact (IHds d)|]. intros c tail Hv.
    inversion Hv as [|? ? Hc Hds]; subst.
    inversion Hds as [|? ? Hd Hs]; subst.
    rewrite quote_chars_cons. destruct (is_leading_surrogate c) eqn:Hlead.
    + destruct (is_trailing_surrogate d) eqn:Htrail.
      * destruct (surrogate_plain c) as (? & ? & ?); [now rewrite Hlead|].
        destruct (surrogate_plain d) as (? & ? & ?);
          [rewrite Htrail; apply orb_true_r|].
        cbn [app]. rewrite !parse_plain by assumption.
        now rewrite IHs.
      * rewrite <- app_assoc, parse_escape by assumption.
        now rewrite (IHds d tail Hds).
    + rewrite <- app_assoc, parse_quote_unit by assumption.
      now rewrite (IHds d tail Hds).
Qed.

Lemma parse_quoted (s tail : jsstring) :
  valid_string s ->
  parse_string_chars (quote_chars s ++ 34 :: tail) = Some (s, tail).
Proof. intro H. now apply (proj1 (parse_quoted_chars s)). Qed.

Lemma QuoteJSONString_app (s tail : jsstring) :
  QuoteJSONString s ++ tail = 34 :: quote_chars s ++ 34 :: tail.
Proof. unfold QuoteJSONString. cbn [app]. now rewrite <- app_assoc. Qed.

(** [parse_value] on a quoted string. *)
Lemma parse_value_string (fuel : nat) (s tail : jsstring) :
  valid_string s ->
  parse_value (S fuel) (QuoteJSONString s ++ tail) = Parsed (JString s) tail.
Proof.
  intro H. rewrite QuoteJSONString_app. cbn [parse_value skip_ws is_ws N.eqb Pos.eqb orb].
  now rewrite parse_quoted.
Qed.

Lemma parse_value_eq (fuel : nat) (s : jsstring) :
  parse_value (S fuel) s
  = match skip_ws s with
    | [] => Invalid
    | c :: rest =>
        if N.eqb c 123 then
          match skip_ws rest with
          | [] => Invalid
          | d :: rest' =>
              if N.eqb d 125 then Parsed (JObject []) rest'
              else
                match parse_members fuel (d :: rest') with
                | Parsed ms r => Parsed (make_object ms) r
                | Invalid => Invalid
                | OutOfFuel => OutOfFuel
                end
          end
        else if N.eqb c 91 then
          match skip_ws rest with
          | [] => Invalid
          | d :: rest' =>
              if N.eqb d 93 then Parsed (JArray []) rest'
              else
                match parse_elements fuel (d :: rest') with
                | Parsed vs r => Parsed (JArray vs) r
                | Invalid => Invalid
                | OutOfFuel => OutOfFuel
                end
          end
        else if N.eqb c 34 then
          match parse_string_chars rest with
          | Some (str, r) => Parsed (JString str) r
          | None => Invalid
          end
        else if N.eqb c 116 then parse_literal (js "true") (JBool true) (c :: rest)
        else if N.eqb c 102 then parse_literal (js "false") (JBool false) (c :: rest)
        else if N.eqb c 110 then parse_literal (js "null") JNull (c :: rest)
        else parse_number (c :: rest)
    end.
Proof. reflexivity. Qed.

Lemma parse_elements_eq (fuel : nat) (s : jsstring) :
  parse_elements (S fuel) s
  = match parse_value fuel s with
    | Parsed v r =>
        match skip_ws r with
        | [] => Invalid
        | c :: r' =>
            if N.eqb c 44 then
              match parse_elements fuel r' with
              | Parsed vs r'' => Parsed (v :: vs) r''
              | Invalid => Invalid
              | OutOfFuel => OutOfFuel
              end
            else if N.eqb c 93 then Parsed [v] r'
            else Invalid
        end
    | Invalid => Invalid
    | OutOfFuel => OutOfFuel
    end.
Proof. reflexivity. Qed.

Lemma parse_members_eq (fuel : nat) (s : jsstring) :
  parse_members (S fuel) s
  = match skip_ws s with
    | [] => Invalid
    | q :: s1 =>
        if N.eqb q 34 then
          match parse_string_chars s1 with
          | None => Invalid
          | Some (k, s2) =>
              match skip_ws s2 with
              | [] => Invalid
              | colon :: s3 =>
                  if N.eqb colon 58 then
                    match parse_value fuel s3 with
                    | Parsed v r =>
                        match skip_ws r with
                        | [] => Invalid
                        | c :: r' =>
                            if N.eqb c 44 then
                              match parse_members fuel r' with
                              | Parsed ms r'' => Parsed ((k, v) :: ms) r''
                              | Invalid => Invalid
                              | OutOfFuel => OutOfFuel
                              end
                            else if N.eqb c 125 then Parsed [(k, v)] r'
                            else Invalid
                        end
                    | Invalid => Invalid
                    | OutOfFuel => OutOfFuel
                    end
                  else Invalid
              end
          end
        else Invalid
    end.
Proof. reflexivity. Qed.

Ltac lex := cbn [app skip_ws is_ws N.eqb Pos.eqb orb].

(** One member [k : v] with a string value, followed by a comma. *)
Lemma parse_member_comma (fuel : nat) (k v tail : jsstring) :
  valid_string k -> valid_string v ->
  parse_members (S (S fuel))
    (QuoteJSONString k ++ 58 :: QuoteJSONString v ++ 44 :: tail)
  = match parse_members (S fuel) tail with
    | Parsed ms r => Parsed ((k, JString v) :: ms) r
    | Invalid => Invalid
    | OutOfFuel => OutOfFuel
    end.
Proof.
  intros Hk Hv. rewrite parse_members_eq, QuoteJSONString_app. lex.
  rewrite parse_quoted by exact Hk. lex.
  rewrite parse_value_string by exact Hv. lex. reflexivity.
Qed.

(** The last member, followed by the closing brace. *)
Lemma parse_member_brace (fuel : nat) (k v tail : jsstring) :
  valid_string k -> valid_string v ->
  parse_members (S (S fuel))
    (QuoteJSONString k ++ 58 :: QuoteJSONString v ++ 125 :: tail)
  = Parsed [(k, JString v)] tail.
Proof.
  intros Hk Hv. rewrite parse_members_eq, QuoteJSONString_app. lex.
  rewrite parse_quoted by exact Hk. lex.
  rewrite parse_value_string by exact Hv. lex. reflexivity.
Qed.

Lemma valid_js (s : string) : valid_string (js s).
Proof.
  unfold valid_string, js. apply Forall_forall. intros c Hc.
  apply in_map_iff in Hc as (a & <- & _). unfold valid_unit.
  pose proof (N_ascii_bounded a). lia.
Qed.

(** The text of a note, as the members the parser meets. *)
Lemma stringify_note_app (n : Note) (tail : jsstring) :
  stringify_note n ++ tail
  = 123 :: QuoteJSONString (js "id") ++ 58 :: QuoteJSONString (id n) ++ 44 ::
    QuoteJSONString (js "content") ++ 58 :: QuoteJSONString (content n) ++ 44 ::
    QuoteJSONString (js "createdAt") ++ 58 :: QuoteJSONString (createdAt n) ++ 44 ::
    QuoteJSONString (js "updatedAt") ++ 58 :: QuoteJSONString (updatedAt n) ++ 125 :: tail.
Proof.
  unfold stringify_note.
  change (js "{") with [123]. change (js ":") with [58].
  change (js ",") with [44]. change (js "}") with [125].
  repeat (rewrite <- app_assoc; cbn [app]). reflexivity.
Qed.

(** A serialized note reads back as the object of its four properties. *)
Lemma parse_value_note (fuel : nat) (n : Note) (tail : jsstring) :
  valid_note n -> (6 <= fuel)%nat ->
  parse_value fuel (stringify_note n ++ tail) = Parsed (note_value n) tail.
Proof.
  intros (Hi & Hc & Hca & Hua) Hfuel.
  do 6 (destruct fuel as [|fuel]; [lia|]).
  rewrite stringify_note_app, parse_value_eq. lex.
  rewrite QuoteJSONString_app. lex. rewrite <- QuoteJSONString_app.
  rewrite !parse_member_comma, parse_member_brace by (apply valid_js || assumption).
  reflexivity.
Qed.

Lemma stringify_elements_cons (n m : Note) (l : list Note) :
  stringify_elements (n :: m :: l)
  = stringify_note n ++ 44 :: stringify_elements (m :: l).
Proof. reflexivity. Qed.

Lemma stringify_elements_head (n : Note) (l : list Note) (tail : jsstring) :
  exists rest, stringify_elements (n :: l) ++ tail = 123 :: rest.
Proof.
  destruct l as [|m l].
  - cbn [stringify_elements]. rewrite stringify_note_app. eexists. reflexivity.
  - rewrite stringify_elements_cons, <- app_assoc, stringify_note_app.
    eexists. reflexivity.
Qed.

(** The elements of a serialized array, up to the closing bracket. *)
Lemma parse_elements_notes (l : list Note) :
  forall (n : Note) (fuel : nat) (tail : jsstring),
    Forall valid_note (n :: l) -> (7 + List.length l <= fuel)%nat ->
    parse_elements fuel (stringify_elements (n :: l) ++ 93 :: tail)
    = Parsed (List.map note_value (n :: l)) tail.
Proof.
  induction l as [|m l IH]; intros n fuel tail Hv Hfuel;
    inversion Hv as [|? ? Hn Hl]; subst;
    (destruct fuel as [|fuel]; [simpl in Hfuel; lia|]);
    rewrite parse_elements_eq.
  - cbn [stringify_elements].
    rewrite parse_value_note by (trivial; simpl in Hfuel; lia). lex. reflexivity.
  - rewrite stringify_elements_cons, <- app_assoc.
    rewrite parse_value_note by (trivial; simpl in Hfuel; lia). lex.
    rewrite IH by (trivial; simpl in Hfuel |- *; lia). reflexivity.
Qed.

Lemma stringify_note_length (n : Note) : (4 <= List.length (stringify_note n))%nat.
Proof.
  rewrite <- (app_nil_r (stringify_note n)), stringify_note_app.
  rewrite QuoteJSONString_app. cbn [List.length]. rewrite length_app.
  cbn [List.length]. lia.
Qed.

Lemma stringify_elements_length (l : list Note) :
  (4 * List.length l <= List.length (stringify_elements l))%nat.
Proof.
  induction l as [|n [|m l] IH].
  - simpl. lia.
  - cbn [stringify_elements]. pose proof (stringify_note_length n). simpl. lia.
  - rewrite stringify_elements_cons, length_app.
    pose proof (stringify_note_length n).
    cbn [List.length] in IH |- *. lia.
Qed.

Lemma parse_value_array (fuel : nat) (text : jsstring) :
  (exists rest, text = 123 :: rest) ->
  parse_value (S fuel) (91 :: text)
  = match parse_elements fuel text with
    | Parsed vs r => Parsed (JArray vs) r
    | Invalid => Invalid
    | OutOfFuel => OutOfFuel
    end.
Proof. intros [rest ->]. rewrite parse_value_eq. lex. reflexivity. Qed.

(** [JSON.parse(JSON.stringify(notes))] is the array of the notes. *)
Lemma parse_stringify (l : list Note) :
  Forall valid_note l -> parse (stringify l) = Return (notes_value l).
Proof.
  intro Hv. unfold parse, parse_fuel, stringify.
  change (js "[") with [91]. change (js "]") with [93]. cbn [app].
  destruct l as [|n l].
  - reflexivity.
  - pose proof (stringify_elements_length (n :: l)) as Hlen.
    rewrite parse_value_array by apply stringify_elements_head.
    rewrite parse_elements_notes; [reflexivity|exact Hv|].
    cbn [List.length] in Hlen |- *. rewrite length_app. cbn [List.length]. lia.
Qed.

Lemma as_notes_value (l : list Note) : as_notes (notes_value l) = Some l.
Proof.
  unfold as_notes, notes_value.
  induction l as [|[i c ca ua] l IH]; [reflexivity|].
  cbn [List.map as_note_list]. rewrite IH. reflexivity.
Qed.

End RoundTrip.

Lemma getItem_setItem (k v : jsstring) (s : Storage) : getItem k (setItem k v s) = Some v.
Proof. unfold getItem, setItem. now rewrite jsstring_eqb_refl. Qed.

(* ===================================================================== *)
(** * JSON.parse always answers                                           *)
(* ===================================================================== *)

Section Fuel.
Local Open Scope nat_scope.

Lemma skip_ws_length (s : jsstring) : List.length (skip_ws s) <= List.length s.
Proof.
  induction s as [|c s IH]; simpl; [lia|].
  destruct (is_ws c); simpl; lia.
Qed.

Lemma push_unit_some (c : code_unit) (r : option (jsstring * jsstring))
    (str rest : jsstring) :
  push_unit c r = Some (str, rest) -> exists str', r = Some (str', rest).
Proof.
  destruct r as [[str' rest']|]; simpl; [|discriminate].
  intro H. injection H as _ ->. now exists str'.
Qed.

Lemma parse_string_chars_length (n : nat) :
  forall s str r,
    List.length s <= n ->
    parse_string_chars s = Some (str, r) -> List.length r < List.length s.
Proof.
  induction n as [|n IH]; intros s str r Hn H.
  - destruct s; [discriminate|simpl in Hn; lia].
  - destruct s as [|c rest]; [discriminate|].
    cbn [parse_string_chars] in H. simpl in Hn |- *.
    destruct (N.eqb c 34); [injection H as _ ->; lia|].
    destruct (N.eqb c 92).
    + destruct rest as [|e rest1]; [discriminate|].
      simpl in Hn |- *. destruct (N.eqb e 117).
      * destruct rest1 as [|h1 [|h2 [|h3 [|h4 rest2]]]]; try discriminate.
        destruct (hex4 h1 h2 h3 h4); [|discriminate].
        apply push_unit_some in H as (str' & H).
        apply IH in H; simpl in Hn |- *; lia.
      * destruct (simple_escape e); [|discriminate].
        apply push_unit_some in H as (str' & H).
        apply IH in H; simpl in Hn |- *; lia.
    + destruct (N.ltb c 32); [discriminate|].
      apply push_unit_some in H as (str' & H).
      apply IH in H; lia.
Qed.

Lemma take_digits_length (s : jsstring) (ds : list N) (r : jsstring) :
  take_digits s = (ds, r) -> List.length r <= List.length s.
Proof.
  revert ds r. induction s as [|c s IH]; simpl; intros ds r H.
  - injection H as _ <-. simpl. lia.
  - destruct (is_digit c).
    + destruct (take_digits s) as [ds' r'] eqn:E. injection H as _ <-.
      specialize (IH ds' r' eq_refl). lia.
    + injection H as _ <-. simpl. lia.
Qed.

Lemma parse_int_length (s : jsstring) (ds : list N) (r : jsstring) :
  parse_int s = Some (ds, r) -> List.length r < List.length s.
Proof.
  destruct s as [|c s]; simpl; [discriminate|].
  destruct (N.eqb c 48); [intro H; injection H as _ <-; lia|].
  destruct (is_digit c); [|discriminate].
  destruct (take_digits s) as [ds' r'] eqn:E. intro H. injection H as _ <-.
  apply take_digits_length in E. lia.
Qed.

Lemma parse_fraction_length (s : jsstring) (ds : list N) (r : jsstring) :
  parse_fraction s = Some (ds, r) -> List.length r <= List.length s.
Proof.
  destruct s as [|c s]; simpl; [intro H; injection H as _ <-; simpl; lia|].
  destruct (N.eqb c 46).
  - destruct (take_digits s) as [[|d ds'] r'] eqn:E; [discriminate|].
    intro H. injection H as _ <-. apply take_digits_length in E. lia.
  - intro H. injection H as _ <-. simpl. lia.
Qed.

Lemma parse_exponent_length (s : jsstring) (e : Z) (r : jsstring) :
  parse_exponent s = Some (e, r) -> List.length r <= List.length s.
Proof.
  destruct s as [|c s]; simpl; [intro H; injection H as _ <-; simpl; lia|].
  destruct (N.eqb c 101 || N.eqb c 69)%bool.
  - destruct s as [|sg s'].
    + simpl. discriminate.
    + destruct (N.eqb sg 45);
        [|destruct (N.eqb sg 43)];
        match goal with
        | |- context [take_digits ?x] =>
            destruct (take_digits x) as [[|d ds'] r'] eqn:E; [discriminate|]
        end;
        intro H; injection H as _ <-; apply take_digits_length in E;
        simpl in E |- *; lia.
  - intro H. injection H as _ <-. simpl. lia.
Qed.

Lemma parse_number_length (s : jsstring) (v : Value) (r : jsstring) :
  parse_number s = Parsed v r -> List.length r < List.length s.
Proof.
  unfold parse_number.
  set (signed := match s with
                 | c :: rest => if N.eqb c 45 then (true, rest) else (false, s)
                 | [] => (false, s)
                 end).
  assert (Hs : List.length (snd signed) <= List.length s).
  { subst signed. destruct s as [|c rest]; simpl; [lia|].
    destruct (N.eqb c 45); simpl; lia. }
  destruct signed as [neg s1]. simpl in Hs.
  destruct (parse_int s1) as [[ints s2]|] eqn:E1; [|discriminate].
  destruct (parse_fraction s2) as [[fracs s3]|] eqn:E2; [|discriminate].
  destruct (parse_exponent s3) as [[e s4]|] eqn:E3; [|discriminate].
  intro H. injection H as _ <-.
  apply parse_int_length in E1. apply parse_fraction_length in E2.
  apply parse_exponent_length in E3. lia.
Qed.

Lemma strip_prefix_length (p s r : jsstring) :
  strip_prefix p s = Some r -> List.length r + List.length p = List.length s.
Proof.
  revert s. induction p as [|x p IH]; intros [|y s]; simpl; intro H;
    try discriminate.
  - injection H as <-. simpl. lia.
  - injection H as <-. simpl. lia.
  - destruct (N.eqb x y); [|discriminate]. apply IH in H. lia.
Qed.

Lemma parse_literal_length (word : jsstring) (v v' : Value) (s r : jsstring) :
  word <> [] -> parse_literal word v s = Parsed v' r -> List.length r < List.length s.
Proof.
  unfold parse_literal. intros Hw H.
  destruct (strip_prefix word s) as [rest|] eqn:E; [|discriminate].
  injection H as _ <-. apply strip_prefix_length in E.
  destruct word; [contradiction|]. simpl in E. lia.
Qed.

End Fuel.

Section Totality.
Local Open Scope nat_scope.

(** Whatever the parser reads, it reads at least one character of. *)
Lemma parse_consumes (fuel : nat) :
  (forall s v r, parse_value fuel s = Parsed v r -> List.length r < List.length s)
  /\ (forall s vs r, parse_elements fuel s = Parsed vs r -> List.length r < List.length s)
  /\ (forall s ms r, parse_members fuel s = Parsed ms r -> List.length r < List.length s).
Proof.
  induction fuel as [|f (IHv & IHe & IHm)]; [repeat split; intros; discriminate|].
  split; [|split].
  - intros s v r H. rewrite parse_value_eq in H.
    pose proof (skip_ws_length s) as Hs.
    destruct (skip_ws s) as [|c rest]; [discriminate|]. simpl in Hs.
    destruct (N.eqb c 123).
    { pose proof (skip_ws_length rest) as Hr.
      destruct (skip_ws rest) as [|d rest']; [discriminate|]. simpl in Hr.
      destruct (N.eqb d 125); [injection H as _ <-; lia|].
      destruct (parse_members f (d :: rest')) as [ms r0| |] eqn:Em; try discriminate.
      injection H as _ <-. apply IHm in Em. simpl in Em. lia. }
    destruct (N.eqb c 91).
    { pose proof (skip_ws_length rest) as Hr.
      destruct (skip_ws rest) as [|d rest']; [discriminate|]. simpl in Hr.
      destruct (N.eqb d 93); [injection H as _ <-; lia|].
      destruct (parse_elements f (d :: rest')) as [vs r0| |] eqn:Ee; try discriminate.
      injection H as _ <-. apply IHe in Ee. simpl in Ee. lia. }
    destruct (N.eqb c 34).
    { destruct (parse_string_chars rest) as [[str r0]|] eqn:Es; [|discriminate].
      injection H as _ <-.
      apply (parse_string_chars_length (List.length rest)) in Es; lia. }
    destruct (N.eqb c 116);
      [apply parse_literal_length in H; [simpl in H; lia|discriminate]|].
    destruct (N.eqb c 102);
      [apply parse_literal_length in H; [simpl in H; lia|discriminate]|].
    destruct (N.eqb c 110);
      [apply parse_literal_length in H; [simpl in H; lia|discriminate]|].
    apply parse_number_length in H. simpl in H. lia.
  - intros s vs r H. rewrite parse_elements_eq in H.
    destruct (parse_value f s) as [v r0| |] eqn:Ev; try discriminate.
    apply IHv in Ev. pose proof (skip_ws_length r0) as Hr.
    destruct (skip_ws r0) as [|c r']; [discriminate|]. simpl in Hr.
    destruct (N.eqb c 44).
    { destruct (parse_elements f r') as [vs' r1| |] eqn:Ee; try discriminate.
      injection H as _ <-. apply IHe in Ee. lia. }
    destruct (N.eqb c 93); [|discriminate]. injection H as _ <-. lia.
  - intros s ms r H. rewrite parse_members_eq in H.
    pose proof (skip_ws_length s) as Hs.
    destruct (skip_ws s) as [|q s1]; [discriminate|]. simpl in Hs.
    destruct (N.eqb q 34); [|discriminate].
    destruct (parse_string_chars s1) as [[k s2]|] eqn:Es; [|discriminate].
    apply (parse_string_chars_length (List.length s1)) in Es; [|lia].
    pose proof (skip_ws_length s2) as Hs2.
    destruct (skip_ws s2) as [|colon s3]; [discriminate|]. simpl in Hs2.
    destruct (N.eqb colon 58); [|discriminate].
    destruct (parse_value f s3) as [v r0| |] eqn:Ev; try discriminate.
    apply IHv in Ev. pose proof (skip_ws_length r0) as Hr.
    destruct (skip_ws r0) as [|c r']; [discriminate|]. simpl in Hr.
    destruct (N.eqb c 44).
    { destruct (parse_members f r') as [ms' r1| |] eqn:Em; try discriminate.
      injection H as _ <-. apply IHm in Em. lia. }
    destruct (N.eqb c 125); [|discriminate]. injection H as _ <-. lia.
Qed.

Lemma parse_literal_answers (word : jsstring) (v : Value) (s : jsstring) :
  parse_literal word v s <> OutOfFuel.
Proof. unfold parse_literal. destruct (strip_prefix word s); discriminate. Qed.

Lemma parse_number_answers (s : jsstring) : parse_number s <> OutOfFuel.
Proof.
  unfold parse_number.
  destruct (match s with
            | c :: rest => if N.eqb c 45 then (true, rest) else (false, s)
            | [] => (false, s)
            end) as [neg s1].
  destruct (parse_int s1) as [[ints s2]|]; [|discriminate].
  destruct (parse_fraction s2) as [[fracs s3]|]; [|discriminate].
  destruct (parse_exponent s3) as [[e s4]|]; discriminate.
Qed.

(** With fuel above twice the length of the text the parser never stops
    for want of fuel. *)
Lemma parse_fuel_enough (fuel : nat) :
  (forall s, 2 * List.length s < fuel -> parse_value fuel s <> OutOfFuel)
  /\ (forall s, 2 * List.length s + 1 < fuel -> parse_elements fuel s <> OutOfFuel)
  /\ (forall s, 2 * List.length s + 1 < fuel -> parse_members fuel s <> OutOfFuel).
Proof.
  induction fuel as [|f (IHv & IHe & IHm)]; [repeat split; intros; lia|].
  destruct (parse_consumes f) as (Cv & _ & _).
  split; [|split].
  - intros s Hf H. rewrite parse_value_eq in H.
    pose proof (skip_ws_length s) as Hs.
    destruct (skip_ws s) as [|c rest]; [discriminate|]. simpl in Hs.
    destruct (N.eqb c 123).
    { pose proof (skip_ws_length rest) as Hr.
      destruct (skip_ws rest) as [|d rest']; [discriminate|]. simpl in Hr.
      destruct (N.eqb d 125); [discriminate|].
      destruct (parse_members f (d :: rest')) as [ms r0| |] eqn:Em; try discriminate.
      apply IHm in Em; [exact Em|simpl; lia]. }
    destruct (N.eqb c 91).
    { pose proof (skip_ws_length rest) as Hr.
      destruct (skip_ws rest) as [|d rest']; [discriminate|]. simpl in Hr.
      destruct (N.eqb d 93); [discriminate|].
      destruct (parse_elements f (d :: rest')) as [vs r0| |] eqn:Ee; try discriminate.
      apply IHe in Ee; [exact Ee|simpl; lia]. }
    destruct (N.eqb c 34).
    { destruct (parse_string_chars rest) as [[str r0]|]; discriminate. }
    destruct (N.eqb c 116); [now apply parse_literal_answers in H|].
    destruct (N.eqb c 102); [now apply parse_literal_answers in H|].
    destruct (N.eqb c 110); [now apply parse_literal_answers in H|].
    now apply parse_number_answers in H.
  - intros s Hf H. rewrite parse_elements_eq in H.
    destruct (parse_value f s) as [v r0| |] eqn:Ev; try discriminate.
    + apply Cv in Ev. pose proof (skip_ws_length r0) as Hr.
      destruct (skip_ws r0) as [|c r']; [discriminate|]. simpl in Hr.
      destruct (N.eqb c 44).
      { destruct (parse_elements f r') as [vs' r1| |] eqn:Ee; try discriminate.
        apply IHe in Ee; [exact Ee|lia]. }
      destruct (N.eqb c 93); discriminate.
    + apply IHv in Ev; [exact Ev|lia].
  - intros s Hf H. rewrite parse_members_eq in H.
    pose proof (skip_ws_length s) as Hs.
    destruct (skip_ws s) as [|q s1]; [discriminate|]. simpl in Hs.
    destruct (N.eqb q 34); [|discriminate].
    destruct (parse_string_chars s1) as [[k s2]|] eqn:Es; [|discriminate].
    apply (parse_string_chars_length (List.length s1)) in Es; [|lia].
    pose proof (skip_ws_length s2) as Hs2.
    destruct (skip_ws s2) as [|colon s3]; [discriminate|]. simpl in Hs2.
    destruct (N.eqb colon 58); [|discriminate].
    destruct (parse_value f s3) as [v r0| |] eqn:Ev; try discriminate.
    + apply Cv in Ev. pose proof (skip_ws_length r0) as Hr.
      destruct (skip_ws r0) as [|c r']; [discriminate|]. simpl in Hr.
      destruct (N.eqb c 44).
      { destruct (parse_members f r') as [ms' r1| |] eqn:Em; try discriminate.
        apply IHm in Em; [exact Em|lia]. }
      destruct (N.eqb c 125); discriminate.
    + apply IHv in Ev; [exact Ev|lia].
Qed.

(** The fuel [JSON.parse] gives is enough for every text: a [SyntaxError]
    always comes from the grammar. *)
Lemma parse_value_fuel (text : jsstring) :
  parse_value (parse_fuel text) text <> OutOfFuel.
Proof.
  apply (proj1 (parse_fuel_enough (parse_fuel text))). unfold parse_fuel. lia.
Qed.

End Totality.

(* ===================================================================== *)
(** * Persistence                                                         *)
(* ===================================================================== *)

(** What [load] returns on what [save] stored. *)
Lemma load_save (l : list Note) (s : Storage) :
  Forall valid_note l -> load (save l s) = Return (notes_value l).
Proof.
  intro Hv. unfold load, save. rewrite getItem_setItem. cbn [ToString].
  rewrite (parse_stringify l Hv). reflexivity.
Qed.

(** [load] and [boot] read the [notes] slot only. *)
Lemma load_slot (s s' : Storage) :
  getItem (js "notes") s = getItem (js "notes") s' -> load s = load s'.
Proof. intro H. unfold load. now rewrite H. Qed.

Lemma boot_slot (s s' : Storage) :
  getItem (js "notes") s = getItem (js "notes") s' ->
  option_map list_notes (boot s) = option_map list_notes (boot s').
Proof.
  intro H. unfold boot. rewrite (load_slot s s' H).
  destruct (load s') as [v|err]; [|reflexivity].
  destruct (as_notes v) as [l|]; [|reflexivity].
  cbn [option_map]. now rewrite !list_notes_mount.
Qed.

Lemma boot_save (l : list Note) (s : Storage) :
  Forall valid_note l -> option_map list_notes (boot (save l s)) = Some l.
Proof.
  intro Hv. unfold boot. rewrite (load_save l s Hv), as_notes_value.
  cbn [option_map]. now rewrite list_notes_mount.
Qed.

(** ** The slot mirrors the collection *)

Lemma commit_mirrored (w : World) (p : Pending) :
  mirrored w ->
  (next_notes p = None -> List.map (cur_heap p) (notes w) = list_notes w) ->
  mirrored (commit w p).
Proof.
  unfold mirrored, commit, list_notes. simpl. intros Hm Hkeep.
  destruct (next_notes p) as [l|]; simpl.
  - unfold save. apply getItem_setItem.
  - now rewrite Hkeep.
Qed.

Lemma step_keeps_mirrored (w w' : World) (e : Env) (ev : Event) :
  mirrored w -> step e ev w = Some w' -> mirrored w'.
Proof.
  intros Hm Hstep. unfold step in Hstep.
  destruct (handler_of ev w) as [h|] eqn:Hh; [|discriminate].
  injection Hstep as <-. unfold dispatch. apply commit_mirrored; [exact Hm|].
  destruct ev; simpl in Hh;
    try (destruct (form_open w) eqn:Hf; [|discriminate]);
    try (destruct (view_open w) eqn:Hv; [|discriminate]);
    try (destruct (nth_error (notes w) k) as [note|] eqn:Hk; [|discriminate]);
    injection Hh as <-;
    try (intros _; reflexivity).
  - destruct (list_eq_dec N.eq_dec (type (modal w)) (js "ADD")) as [H|H].
    + rewrite (submit_add w e H). simpl. discriminate.
    + rewrite (submit_edit w e H).
      destruct (editNote_cases (option_map (fun r => id (heap w r)) (data (modal w)))
                               (field_content (form w)) e w) as [Ht|(h & l & Hn)].
      * rewrite Ht. intros _. reflexivity.
      * rewrite Hn. simpl. discriminate.
  - destruct (data (modal w)); intros _; reflexivity.
  - destruct (data (modal w)); simpl; discriminate.
Qed.

Lemma reachable_mirrored (w : World) : reachable w -> mirrored w.
Proof.
  induction 1 as [l s|w e ev w' _ IH Hstep].
  - unfold mirrored. rewrite list_notes_mount. unfold mount, save. simpl.
    apply getItem_setItem.
  - eapply step_keeps_mirrored; eauto.
Qed.

(** The initializer of line 23 is evaluated again at every render, its
    value being dropped: it returns, on what the application itself stored. *)
Lemma initializer_returns_when_reachable (w : World) :
  reachable w -> Forall valid_note (list_notes w) ->
  load (localStorage w) = Return (notes_value (list_notes w)).
Proof.
  intros Hr Hv. apply reachable_mirrored in Hr.
  rewrite (load_slot (localStorage w) (save (list_notes w) (localStorage w))).
  - now apply load_save.
  - unfold save. now rewrite getItem_setItem.
Qed.

(** Closing the page in any reachable state and opening it again gives
    back the collection. *)
Lemma reload_when_reachable (w : World) :
  reachable w -> Forall valid_note (list_notes w) ->
  option_map list_notes (boot (localStorage w)) = Some (list_notes w).
Proof.
  intros Hr Hv. apply reachable_mirrored in Hr.
  rewrite (boot_slot (localStorage w) (save (list_notes w) (localStorage w))).
  - now apply boot_save.
  - unfold save. now rewrite getItem_setItem.
Qed.

(** C6. For every collection of notes whose fields are strings, loading
    what [save] stored returns the array of these notes, in their order and
    with every field; read at type [Note[]] it is the collection, and the
    application then starts on it. *)
Theorem load_after_save (l : list Note) (s : Storage) :
  Forall valid_note l ->
  load (save l s) = Return (notes_value l)
  /\ as_notes (notes_value l) = Some l
  /\ option_map list_notes (boot (save l s)) = Some l.
Proof.
  intro Hv. split; [now apply load_save|].
  split; [apply as_notes_value|now apply boot_save].
Qed.

Lemma load_after_save_witness :
  Forall valid_note [note_A; note_C; note_B]
  /\ load (save [note_A; note_C; note_B] no_storage)
     = Return (notes_value [note_A; note_C; note_B])
  /\ as_notes (notes_value [note_A; note_C; note_B]) = Some [note_A; note_C; note_B]
  /\ option_map list_notes (boot (save [note_A; note_C; note_B] no_storage))
     = Some [note_A; note_C; note_B].
Proof.
  assert (H : Forall valid_note [note_A; note_C; note_B])
    by (repeat first [apply Forall_nil | apply Forall_cons | split]; reflexivity).
  exact (conj H (load_after_save [note_A; note_C; note_B] no_storage H)).
Defined.

Lemma parse_null : parse (js "null") = Return JNull.
Proof. vm_compute. reflexivity. Qed.

(** C7, as amended.  When the slot is absent, [load] raises nothing and
    yields the empty collection, and so does a stored text that parses to a
    falsy value.  When the stored text is not JSON, [JSON.parse] throws a
    [SyntaxError] that nothing catches: the initializer throws and nothing
    is mounted. *)
Theorem load_of_absent_or_malformed (s : Storage) :
  (getItem (js "notes") s = None ->
   load s = Return (JArray []) /\ option_map list_notes (boot s) = Some [])
  /\ (forall text v,
        getItem (js "notes") s = Some text -> parse text = Return v -> truthy v = false ->
        load s = Return (JArray []) /\ option_map list_notes (boot s) = Some [])
  /\ (forall text,
        getItem (js "notes") s = Some text -> parse text = Raise SyntaxError ->
        load s = Raise SyntaxError /\ boot s = None).
Proof.
  split; [|split].
  - intro H.
    assert (Hload : load s = Return (JArray []))
      by (unfold load; rewrite H; cbn [ToString]; now rewrite parse_null).
    split; [exact Hload|]. unfold boot. now rewrite Hload.
  - intros text v H Hp Hf.
    assert (Hload : load s = Return (JArray []))
      by (unfold load; rewrite H; cbn [ToString]; now rewrite Hp, Hf).
    split; [exact Hload|]. unfold boot. now rewrite Hload.
  - intros text H Hp.
    assert (Hload : load s = Raise SyntaxError)
      by (unfold load; rewrite H; cbn [ToString]; now rewrite Hp).
    split; [exact Hload|]. unfold boot. now rewrite Hload.
Qed.

Lemma load_of_absent_or_malformed_witness :
  (getItem (js "notes") no_storage = None
   /\ load no_storage = Return (JArray [])
   /\ option_map list_notes (boot no_storage) = Some [])
  /\ (getItem (js "notes") (setItem (js "notes") (js "false") no_storage) = Some (js "false")
      /\ parse (js "false") = Return (JBool false) /\ truthy (JBool false) = false
      /\ load (setItem (js "notes") (js "false") no_storage) = Return (JArray [])
      /\ option_map list_notes (boot (setItem (js "notes") (js "false") no_storage))
         = Some [])
  /\ (getItem (js "notes") truncated_slot = Some (js "[1, 2")
      /\ parse (js "[1, 2") = Raise SyntaxError
      /\ load truncated_slot = Raise SyntaxError /\ boot truncated_slot = None).
Proof.
  assert (H1 : getItem (js "notes") no_storage = None) by reflexivity.
  assert (H2 : getItem (js "notes") (setItem (js "notes") (js "false") no_storage)
               = Some (js "false")) by (vm_compute; reflexivity).
  assert (H3 : parse (js "false") = Return (JBool false)) by (vm_compute; reflexivity).
  assert (H4 : truthy (JBool false) = false) by reflexivity.
  assert (H5 : getItem (js "notes") truncated_slot = Some (js "[1, 2"))
    by (vm_compute; reflexivity).
  assert (H6 : parse (js "[1, 2") = Raise SyntaxError) by (vm_compute; reflexivity).
  pose proof (load_of_absent_or_malformed no_storage) as (Ta & _ & _).
  pose proof (load_of_absent_or_malformed
                (setItem (js "notes") (js "false") no_storage)) as (_ & Tb & _).
  pose proof (load_of_absent_or_malformed truncated_slot) as (_ & _ & Tc).
  exact (conj (conj H1 (Ta H1))
        (conj (conj H2 (conj H3 (conj H4 (Tb _ _ H2 H3 H4))))
              (conj H5 (conj H6 (Tc _ H5 H6))))).
Defined.

(** C7 as stated fails.  With the empty string in the slot, and with a
    truncated text, [load] throws a [SyntaxError] and no collection, empty
    or not, comes out of it: nothing is mounted.  With the slot absent
    [load] does not fail at all. *)
Lemma load_of_malformed_is_not_recovered :
  (getItem (js "notes") empty_slot = Some (js "")
   /\ load empty_slot = Raise SyntaxError
   /\ load empty_slot <> Return (JArray [])
   /\ boot empty_slot = None)
  /\ (getItem (js "notes") truncated_slot = Some (js "[1, 2")
      /\ load truncated_slot = Raise SyntaxError
      /\ load truncated_slot <> Return (JArray [])
      /\ boot truncated_slot = None)
  /\ (getItem (js "notes") no_storage = None
      /\ load no_storage = Return (JArray [])).
Proof.
  repeat split; vm_compute; try reflexivity; discriminate.
Qed.

(* ===================================================================== *)
(** * Further properties: single steps                                    *)
(* ===================================================================== *)

Lemma after_card_click_reachable : reachable after_card_click.
Proof.
  apply (@reachable_step (mount [note_A] no_storage) sample_env (ClickCard 0)).
  - apply reachable_mount.
  - reflexivity.
Qed.

Lemma others_others (i : jsstring) (l : list Note) : others i (others i l) = others i l.
Proof.
  unfold others. induction l as [|n l IH]; simpl; [reflexivity|].
  destruct (negb (jsstring_eqb (id n) i)) eqn:E; simpl; [rewrite E|]; now rewrite IH.
Qed.

Lemma others_subset (i : jsstring) (l : list Note) (n : Note) :
  In n (others i l) -> In n l.
Proof. unfold others. intro H. now apply filter_In in H as [H _]. Qed.

Lemma deleteNote_undefined_list (e : Env) (w : World) :
  list_notes (dispatch (deleteNote None) e w) = list_notes w.
Proof.
  unfold list_notes, dispatch, run, deleteNote. simpl. f_equal.
  induction (notes w) as [|r l IH]; simpl; [reflexivity|now rewrite IH].
Qed.

(** What each action makes of the state, when its element is rendered. *)
Lemma step_ClickAdd (w : World) (e : Env) :
  step e ClickAdd w
  = Some (mkWorld (heap w) (notes w) (mkModal (js "ADD") None) (markdownMode w)
                  (form w) (localStorage w)).
Proof. reflexivity. Qed.

Lemma step_TypeContent (w : World) (e : Env) (s : jsstring) :
  form_open w = true ->
  step e (TypeContent s) w
  = Some (mkWorld (heap w) (notes w) (modal w) (markdownMode w) (mkForm s)
                  (localStorage w)).
Proof. intro H. unfold step. simpl. rewrite H. reflexivity. Qed.

Lemma step_ClickFormOverlay (w : World) (e : Env) :
  form_open w = true ->
  step e ClickFormOverlay w
  = Some (mkWorld (heap w) (notes w) closed (markdownMode w) (form w) (localStorage w)).
Proof. intro H. unfold step. simpl. rewrite H. reflexivity. Qed.

Lemma step_ClickCard (w : World) (e : Env) (k : nat) (r : ref) :
  nth_error (notes w) k = Some r ->
  step e (ClickCard k) w
  = Some (mkWorld (heap w) (notes w) (mkModal (js "VIEW") (Some r)) (markdownMode w)
                  (form w) (localStorage w)).
Proof. intro H. unfold step. simpl. rewrite H. reflexivity. Qed.

Lemma step_ClickEdit (w : World) (e : Env) (r : ref) :
  view_open w = true -> data (modal w) = Some r ->
  step e ClickEdit w
  = Some (mkWorld (heap w) (notes w) (mkModal (js "EDIT") (Some r)) (markdownMode w)
                  (mkForm (content (heap w r))) (localStorage w)).
Proof. intros Hv Hd. unfold step. simpl. rewrite Hv, Hd. reflexivity. Qed.

Lemma step_ClickDelete (w : World) (e : Env) :
  view_open w = true ->
  exists w',
    step e ClickDelete w = Some w'
    /\ modal w' = closed /\ form w' = form w /\ markdownMode w' = markdownMode w
    /\ list_notes w'
       = list_notes (dispatch (deleteNote (option_map (fun r => id (heap w r))
                                                      (data (modal w)))) e w)
    /\ getItem (js "notes") (localStorage w') = Some (stringify (list_notes w')).
Proof.
  intro Hv. unfold step. simpl. rewrite Hv. eexists. split; [reflexivity|].
  destruct (data (modal w)) as [r|]; repeat split;
    unfold dispatch, run; simpl; unfold save; apply getItem_setItem.
Qed.

Lemma step_SubmitForm_add (w : World) (e : Env) :
  type (modal w) = js "ADD" ->
  exists w',
    step e SubmitForm w = Some w'
    /\ modal w' = closed /\ form w' = mkForm (js "") /\ markdownMode w' = markdownMode w
    /\ list_notes w'
       = mkNote (uuid e) (field_content (form w)) (now e) (now e) :: list_notes w
    /\ getItem (js "notes") (localStorage w') = Some (stringify (list_notes w')).
Proof.
  intro Ht. unfold step. simpl. rewrite (form_open_ADD w Ht).
  eexists. split; [reflexivity|].
  unfold dispatch. rewrite (submit_add w e Ht).
  assert (Hl : list_notes (commit w (effects (run (addNote (field_content (form w))) e w)))
               = mkNote (uuid e) (field_content (form w)) (now e) (now e) :: list_notes w)
    by apply addNote_list.
  simpl in Hl |- *.
  split; [reflexivity|]. split; [reflexivity|]. split; [reflexivity|].
  split; [exact Hl|]. unfold save. apply getItem_setItem.
Qed.

Lemma step_SubmitForm_edit (w : World) (e : Env) (r : ref) :
  type (modal w) = js "EDIT" -> data (modal w) = Some r ->
  In (id (heap w r)) (ids (list_notes w)) ->
  exists w',
    step e SubmitForm w = Some w'
    /\ modal w' = closed /\ form w' = mkForm (js "") /\ markdownMode w' = markdownMode w
    /\ list_notes w'
       = list_notes (dispatch (editNote (Some (id (heap w r))) (field_content (form w))) e w)
    /\ getItem (js "notes") (localStorage w') = Some (stringify (list_notes w')).
Proof.
  intros Ht Hd Hin. unfold step. simpl. rewrite (form_open_EDIT w Ht).
  eexists. split; [reflexivity|].
  assert (Hne : type (modal w) <> js "ADD") by (rewrite Ht; discriminate).
  destruct (editNote_present _ (field_content (form w)) e w Hin)
    as (n & p & _ & _ & Hrun & _).
  destruct (editNote_cases (Some (id (heap w r))) (field_content (form w)) e w)
    as [Ht'|(h & l & Hn)]; [rewrite Hrun in Ht'; discriminate|].
  unfold dispatch. rewrite (submit_edit w e Hne), Hd. simpl. rewrite Hn. simpl.
  repeat split.
Qed.

Lemma nth_error_list_notes (w : World) (k : nat) (n : Note) :
  nth_error (list_notes w) k = Some n ->
  exists r, nth_error (notes w) k = Some r /\ heap w r = n.
Proof.
  unfold list_notes. rewrite nth_error_map.
  destruct (nth_error (notes w) k) as [r|]; simpl; [|discriminate].
  intro H. injection H as <-. now exists r.
Qed.

Lemma nth_error_middle (l1 l2 : list Note) (n : Note) :
  nth_error (l1 ++ n :: l2) (List.length l1) = Some n.
Proof. rewrite nth_error_app2, Nat.sub_diag by lia. reflexivity. Qed.

Lemma after_card_click_valid : Forall valid_note (list_notes after_card_click).
Proof.
  repeat first [apply Forall_nil | apply Forall_cons | split]; reflexivity.
Qed.


(* ===================================================================== *)
(** * Further properties: persistence                                     *)
(* ===================================================================== *)

(** X1. In every reachable state the [notes] slot of the storage holds the
    serialization of the collection as it is then: the effect of lines
    28-30 has run after every change. *)
Theorem slot_mirrors_collection (w : World) :
  reachable w ->
  getItem (js "notes") (localStorage w) = Some (stringify (list_notes w)).
Proof. exact (reachable_mirrored w). Qed.

Lemma slot_mirrors_collection_witness :
  reachable after_card_click
  /\ getItem (js "notes") (localStorage after_card_click)
     = Some (stringify (list_notes after_card_click)).
Proof.
  exact (conj after_card_click_reachable
              (slot_mirrors_collection after_card_click after_card_click_reachable)).
Defined.

(** X2. In every reachable state whose notes hold strings, the initializer
    of line 23, run on the storage as it is then, returns the array of the
    current notes: it does so at each render, and a reload of the page
    starts on the collection as it was left. *)
Theorem reload_restores_collection (w : World) :
  reachable w -> Forall valid_note (list_notes w) ->
  load (localStorage w) = Return (notes_value (list_notes w))
  /\ option_map list_notes (boot (localStorage w)) = Some (list_notes w).
Proof.
  intros Hr Hv. split.
  - now apply initializer_returns_when_reachable.
  - now apply reload_when_reachable.
Qed.

Lemma reload_restores_collection_witness :
  reachable after_card_click
  /\ Forall valid_note (list_notes after_card_click)
  /\ load (localStorage after_card_click)
     = Return (notes_value (list_notes after_card_click))
  /\ option_map list_notes (boot (localStorage after_card_click))
     = Some (list_notes after_card_click).
Proof.
  exact (conj after_card_click_reachable
        (conj after_card_click_valid
              (reload_restores_collection after_card_click
                 after_card_click_reachable after_card_click_valid))).
Defined.



Lemma step_frame (w w' : World) (e : Env) (ev : Event) :
  step e ev w = Some w' -> ev <> SubmitForm -> ev <> ClickDelete ->
  notes w' = notes w /\ list_notes w' = list_notes w
  /\ localStorage w' = localStorage w.
Proof.
  intros Hstep Hs Hd. unfold step in Hstep.
  destruct (handler_of ev w) as [h|] eqn:Hh; [|discriminate].
  injection Hstep as <-.
  destruct ev; try contradiction; simpl in Hh;
    try (destruct (form_open w); [|discriminate]);
    try (destruct (view_open w); [|discriminate]);
    try (destruct (nth_error (notes w) k); [|discriminate]);
    injection Hh as <-;
    try (repeat split; reflexivity).
  destruct (data (modal w)); repeat split; reflexivity.
Qed.

(** X4. Only a submit and Delete change the collection: every other action
    leaves the array, its notes and the storage as they were. *)
Theorem only_submit_and_delete_change_notes (w w' : World) (e : Env) (ev : Event) :
  step e ev w = Some w' -> ev <> SubmitForm -> ev <> ClickDelete ->
  notes w' = notes w /\ list_notes w' = list_notes w
  /\ localStorage w' = localStorage w.
Proof. exact (step_frame w w' e ev). Qed.

Lemma only_submit_and_delete_change_notes_witness :
  step sample_env ClickEdit viewing_world
  = Some (dispatch (handleEdit (data (modal viewing_world))) sample_env viewing_world)
  /\ ClickEdit <> SubmitForm /\ ClickEdit <> ClickDelete
  /\ notes (dispatch (handleEdit (data (modal viewing_world))) sample_env viewing_world)
     = notes viewing_world
  /\ list_notes (dispatch (handleEdit (data (modal viewing_world))) sample_env viewing_world)
     = list_notes viewing_world
  /\ localStorage (dispatch (handleEdit (data (modal viewing_world))) sample_env viewing_world)
     = localStorage viewing_world.
Proof.
  assert (H1 : step sample_env ClickEdit viewing_world
               = Some (dispatch (handleEdit (data (modal viewing_world)))
                                sample_env viewing_world)) by reflexivity.
  assert (H2 : ClickEdit <> SubmitForm) by discriminate.
  assert (H3 : ClickEdit <> ClickDelete) by discriminate.
  exact (conj H1 (conj H2 (conj H3
    (only_submit_and_delete_change_notes viewing_world _ sample_env ClickEdit H1 H2 H3)))).
Defined.






(* ===================================================================== *)
(** * Further properties: how the store operations compose                *)
(* ===================================================================== *)

Lemma apply_op_origin (eo : Env * Op) (w : World) (m : Note) :
  In m (list_notes (apply_op eo w)) ->
  from_initial w m
  \/ exists c, snd eo = Add c /\ id m = uuid (fst eo) /\ createdAt m = now (fst eo).
Proof.
  destruct eo as [e [c|i c|i]]; unfold apply_op; cbn [fst snd op_handler]; intro Hm.
  - rewrite addNote_list in Hm. destruct Hm as [<-|Hm].
    + right. exists c. repeat split.
    + left. exists m. auto.
  - destruct (in_dec (list_eq_dec N.eq_dec) i (ids (list_notes w))) as [Hin|Hout].
    + destruct (editNote_present _ c e w Hin) as (n & p & Hfind & Hid & _ & Hlist).
      rewrite Hlist in Hm. left. destruct Hm as [<-|Hm].
      * exists n. apply find_some in Hfind as [Hn _]. simpl. auto.
      * exists m. apply others_subset in Hm. auto.
    + rewrite (dispatch_throw_at_start _ _ _ _ (editNote_absent _ c e w Hout)) in Hm.
      left. exists m. auto.
  - rewrite deleteNote_list in Hm. apply others_subset in Hm.
    left. exists m. auto.
Qed.

(** X7. No sequence of add, edit and delete changes the [createdAt] an id
    came with: every note of the final collection has the [id] and the
    [createdAt] of a note of the initial collection, or those an [add] of
    the sequence gave. *)
Theorem createdAt_is_never_rewritten (ops : list (Env * Op)) (w : World) (n' : Note) :
  In n' (list_notes (apply_ops ops w)) ->
  from_initial w n' \/ from_add ops n'.
Proof.
  revert w. induction ops as [|eo ops IH]; simpl; intros w Hn.
  - left. exists n'. auto.
  - destruct (IH _ Hn) as [(m & Hm & Hid & Hca)|(e & c & Hin & Hid & Hca)].
    + destruct (apply_op_origin eo w m Hm) as [(n & Hn0 & Hid0 & Hca0)|(c & Hop & Hid0 & Hca0)].
      * left. exists n. repeat split; congruence.
      * right. exists (fst eo), c. split.
        -- left. destruct eo as [e o]. simpl in *. now subst o.
        -- split; congruence.
    + right. exists e, c. split; [now right|auto].
Qed.

Lemma createdAt_is_never_rewritten_witness :
  In (mkNote (js "1") (js "new text") (createdAt note_A) (now later_env))
     (list_notes (apply_ops sample_ops two_notes))
  /\ (from_initial two_notes
        (mkNote (js "1") (js "new text") (createdAt note_A) (now later_env))
      \/ from_add sample_ops
           (mkNote (js "1") (js "new text") (createdAt note_A) (now later_env))).
Proof.
  assert (H : In (mkNote (js "1") (js "new text") (createdAt note_A) (now later_env))
                 (list_notes (apply_ops sample_ops two_notes)))
    by (vm_compute; auto).
  exact (conj H (createdAt_is_never_rewritten sample_ops two_notes _ H)).
Defined.

(** X8. Deleting an id twice is deleting it once. *)
Theorem delete_twice_is_delete_once (w : World) (e1 e2 : Env) (i : jsstring) :
  list_notes (dispatch (deleteNote (Some i)) e2 (dispatch (deleteNote (Some i)) e1 w))
  = list_notes (dispatch (deleteNote (Some i)) e1 w).
Proof. rewrite !deleteNote_list. apply others_others. Qed.

(** X9. Adding a note under a fresh id and deleting that id gives back the
    collection as it was. *)
Theorem add_then_delete_restores (w : World) (e1 e2 : Env) (c : jsstring) :
  ~ In (uuid e1) (ids (list_notes w)) ->
  list_notes (dispatch (deleteNote (Some (uuid e1))) e2 (dispatch (addNote c) e1 w))
  = list_notes w.
Proof.
  intro Hfresh. rewrite deleteNote_list, addNote_list. unfold others. simpl.
  rewrite jsstring_eqb_refl. simpl. now apply others_absent.
Qed.

Lemma add_then_delete_restores_witness :
  ~ In (uuid sample_env) (ids (list_notes two_notes))
  /\ list_notes (dispatch (deleteNote (Some (uuid sample_env))) later_env
                          (dispatch (addNote (js "hello")) sample_env two_notes))
     = list_notes two_notes.
Proof.
  assert (H : ~ In (uuid sample_env) (ids (list_notes two_notes))) by lacks_id.
  exact (conj H (add_then_delete_restores two_notes sample_env later_env (js "hello") H)).
Defined.

(** X10. Editing an id and then deleting it leaves what deleting it at once
    leaves, whether or not a note has the id. *)
Theorem edit_then_delete_is_delete (w : World) (e1 e2 : Env) (i c : jsstring) :
  list_notes (dispatch (deleteNote (Some i)) e2 (dispatch (editNote (Some i) c) e1 w))
  = list_notes (dispatch (deleteNote (Some i)) e2 w).
Proof.
  rewrite !deleteNote_list.
  destruct (in_dec (list_eq_dec N.eq_dec) i (ids (list_notes w))) as [Hin|Hout].
  - destruct (editNote_present _ c e1 w Hin) as (n & p & _ & _ & _ & ->).
    unfold others at 1. simpl. rewrite jsstring_eqb_refl. simpl.
    apply others_others.
  - now rewrite (dispatch_throw_at_start _ _ _ _ (editNote_absent _ c e1 w Hout)).
Qed.

(** X11. Of two edits of the same id the second wins: the collection is
    what the second edit alone would have left, content, [updatedAt] and
    order; the first leaves no trace. *)
Theorem second_edit_wins (w : World) (e1 e2 : Env) (i c1 c2 : jsstring) :
  In i (ids (list_notes w)) ->
  list_notes (dispatch (editNote (Some i) c2) e2 (dispatch (editNote (Some i) c1) e1 w))
  = list_notes (dispatch (editNote (Some i) c2) e2 w).
Proof.
  intro Hin.
  destruct (editNote_present _ c1 e1 w Hin) as (n & p1 & Hf & _ & _ & H1).
  destruct (editNote_present _ c2 e2 w Hin) as (n0 & p2 & Hf0 & _ & _ & H2).
  assert (n0 = n) as -> by congruence.
  assert (Hin1 : In i (ids (list_notes (dispatch (editNote (Some i) c1) e1 w))))
    by (rewrite H1; now left).
  destruct (editNote_present _ c2 e2 _ Hin1) as (m & p3 & Hfm & _ & _ & H3).
  rewrite H3, H2. rewrite H1 in Hfm |- *. simpl in Hfm.
  rewrite jsstring_eqb_refl in Hfm. injection Hfm as <-. simpl.
  f_equal. unfold others at 1. simpl. rewrite jsstring_eqb_refl. simpl.
  apply others_others.
Qed.

Lemma second_edit_wins_witness :
  In (js "1") (ids (list_notes twins))
  /\ list_notes (dispatch (editNote (Some (js "1")) (js "second try")) third_env
                          (dispatch (editNote (Some (js "1")) (js "first try")) later_env twins))
     = list_notes (dispatch (editNote (Some (js "1")) (js "second try")) third_env twins).
Proof.
  assert (H : In (js "1") (ids (list_notes twins))) by has_id.
  exact (conj H (second_edit_wins twins later_env third_env (js "1")
                   (js "first try") (js "second try") H)).
Defined.

(** X12. With [undefined] for an id, as [modal.data?.id] gives when the
    modal holds no note, delete keeps every note and edit throws a
    [TypeError] with nothing written. *)
Theorem undefined_id_deletes_nothing_and_edit_throws (w : World) (e : Env) (c : jsstring) :
  (exists p, run (deleteNote None) e w = Normal tt p)
  /\ list_notes (dispatch (deleteNote None) e w) = list_notes w
  /\ run (editNote None c) e w = Throw TypeError (start w)
  /\ dispatch (editNote None c) e w = w.
Proof.
  assert (Hfind : List.find (fun note => strict_eq (id (heap w note)) None) (notes w) = None).
  { induction (notes w) as [|r l IH]; [reflexivity|exact IH]. }
  pose proof (editNote_not_found None c e w Hfind) as Hthrow.
  split; [apply deleteNote_run|]. split; [apply deleteNote_undefined_list|].
  split; [exact Hthrow|]. exact (dispatch_throw_at_start _ e w _ Hthrow).
Qed.


(* ===================================================================== *)
(** * Further properties: what a user's actions add up to                 *)
(* ===================================================================== *)

Lemma others_middle (l1 l2 : list Note) (n : Note) :
  NoDup (ids (l1 ++ n :: l2)) -> others (id n) (l1 ++ n :: l2) = l1 ++ l2.
Proof.
  induction l1 as [|m l1 IH]; simpl; intro Hnd; inversion Hnd as [|? ? Hm Hl]; subst.
  - unfold others. simpl. rewrite jsstring_eqb_refl. simpl.
    now apply others_absent.
  - unfold others in *. simpl.
    destruct (jsstring_eqb (id m) (id n)) eqn:E; simpl.
    + apply jsstring_eqb_eq in E. exfalso. apply Hm. rewrite E. unfold ids.
      rewrite map_app. apply in_or_app. right. now left.
    + f_equal. now apply IH.
Qed.

Lemma nth_error_split_ids (l : list Note) (k : nat) (n : Note) :
  nth_error l k = Some n -> NoDup (ids l) ->
  exists l1 l2,
    l = l1 ++ n :: l2 /\ List.length l1 = k
    /\ others (id n) l = l1 ++ l2
    /\ List.find (fun m => jsstring_eqb (id m) (id n)) l = Some n.
Proof.
  intros Hk Hnd. destruct (nth_error_split l k Hk) as (l1 & l2 & -> & Hlen).
  exists l1, l2. repeat split; trivial.
  - now apply others_middle.
  - now apply find_unique.
Qed.

Lemma submit_edit_list (w : World) (e : Env) :
  type (modal w) <> js "ADD" ->
  list_notes (dispatch (handleSubmit handleForm) e w)
  = list_notes (dispatch (editNote (option_map (fun r => id (heap w r)) (data (modal w)))
                                   (field_content (form w))) e w).
Proof.
  intro H. unfold dispatch. rewrite (submit_edit w e H).
  destruct (run (editNote _ _) e w); reflexivity.
Qed.

(** The edit form opened from the card of [notes[k]]. *)
Lemma open_edit_form (w : World) (e1 e2 : Env) (k : nat) (r : ref) :
  nth_error (notes w) k = Some r ->
  run_events [(e1, ClickCard k); (e2, ClickEdit)] w
  = Some (mkWorld (heap w) (notes w) (mkModal (js "EDIT") (Some r)) (markdownMode w)
                  (mkForm (content (heap w r))) (localStorage w)).
Proof.
  intro Hk. cbn [run_events]. rewrite (step_ClickCard w e1 k r Hk).
  rewrite step_ClickEdit with (r := r); reflexivity.
Qed.

(** A submit of the edit form on a note of the array. *)
Lemma submit_edit_form (w : World) (e : Env) (r : ref) :
  type (modal w) = js "EDIT" -> data (modal w) = Some r -> In r (notes w) ->
  exists w' m,
    step e SubmitForm w = Some w'
    /\ List.find (fun x => jsstring_eqb (id x) (id (heap w r))) (list_notes w) = Some m
    /\ list_notes w'
       = mkNote (id (heap w r)) (field_content (form w)) (createdAt m) (now e)
         :: others (id (heap w r)) (list_notes w)
    /\ modal w' = closed /\ form w' = mkForm (js "")
    /\ getItem (js "notes") (localStorage w') = Some (stringify (list_notes w')).
Proof.
  intros Ht Hd Hr.
  assert (Hin : In (id (heap w r)) (ids (list_notes w))).
  { unfold ids, list_notes. rewrite map_map.
    now apply (in_map (fun x => id (heap w x))). }
  destruct (step_SubmitForm_edit w e r Ht Hd Hin) as (w' & Hs & Hm & Hf & _ & Hl & Hst).
  destruct (editNote_present _ (field_content (form w)) e w Hin)
    as (m & p & Hfind & _ & _ & Hlist).
  exists w', m. rewrite Hl, Hlist in *. auto 8.
Qed.

(** X13. From any state: the + button, some typing and a submit add one note
    with the typed content at the front, close the modal, empty the form
    and store the new collection. *)
Theorem add_flow (w : World) (e1 e2 e3 : Env) (s : jsstring) :
  exists w',
    run_events [(e1, ClickAdd); (e2, TypeContent s); (e3, SubmitForm)] w = Some w'
    /\ list_notes w' = mkNote (uuid e3) s (now e3) (now e3) :: list_notes w
    /\ modal w' = closed /\ form w' = mkForm (js "")
    /\ getItem (js "notes") (localStorage w') = Some (stringify (list_notes w')).
Proof.
  cbn [run_events]. rewrite step_ClickAdd.
  rewrite step_TypeContent by reflexivity.
  match goal with
  | |- context [step e3 SubmitForm ?w2] =>
      destruct (step_SubmitForm_add w2 e3 eq_refl) as (w' & Hs & Hm & Hf & _ & Hl & Hst)
  end.
  rewrite Hs. exists w'. auto.
Qed.

(** X14. From the card of a note: Edit, some typing and a submit put first a
    note with the id of the card's note, the typed content and the current
    time as [updatedAt], followed by the notes of every other id; the
    [createdAt] kept is that of the first note of that id.  With pairwise
    distinct ids that is the note of the card, and the notes on both sides
    of it follow in their order. *)
Theorem edit_flow (w : World) (e1 e2 e3 e4 : Env) (k : nat) (n : Note) (s : jsstring) :
  nth_error (list_notes w) k = Some n ->
  exists w' m,
    run_events [(e1, ClickCard k); (e2, ClickEdit); (e3, TypeContent s);
                (e4, SubmitForm)] w = Some w'
    /\ List.find (fun x => jsstring_eqb (id x) (id n)) (list_notes w) = Some m
    /\ list_notes w'
       = mkNote (id n) s (createdAt m) (now e4) :: others (id n) (list_notes w)
    /\ modal w' = closed /\ form w' = mkForm (js "")
    /\ getItem (js "notes") (localStorage w') = Some (stringify (list_notes w'))
    /\ (NoDup (ids (list_notes w)) ->
        m = n
        /\ exists l1 l2,
             list_notes w = l1 ++ n :: l2 /\ List.length l1 = k
             /\ list_notes w' = mkNote (id n) s (createdAt n) (now e4) :: l1 ++ l2).
Proof.
  intro Hk. destruct (nth_error_list_notes w k n Hk) as (r & Hr & Hn).
  change [(e1, ClickCard k); (e2, ClickEdit); (e3, TypeContent s); (e4, SubmitForm)]
    with ([(e1, ClickCard k); (e2, ClickEdit)]
          ++ [(e3, TypeContent s); (e4, SubmitForm)]).
  cbn [run_events app]. rewrite (step_ClickCard w e1 k r Hr).
  rewrite step_ClickEdit with (r := r) by reflexivity.
  rewrite step_TypeContent by reflexivity.
  match goal with
  | |- context [step e4 SubmitForm ?w3] =>
      destruct (submit_edit_form w3 e4 r eq_refl eq_refl)
        as (w' & m & Hs & Hfind & Hl & Hm & Hf & Hst);
        [eapply nth_error_In; exact Hr|]
  end.
  cbn [heap form field_content] in Hfind, Hl. rewrite Hn in Hfind, Hl.
  change (list_notes _) with (list_notes w) in Hfind at 1.
  rewrite Hs. exists w', m. repeat split; trivial.
  - destruct (nth_error_split_ids _ k n Hk H) as (l1 & l2 & _ & _ & _ & Hu).
    congruence.
  - destruct (nth_error_split_ids _ k n Hk H) as (l1 & l2 & Hsplit & Hlen & Ho & Hu).
    exists l1, l2. repeat split; trivial.
    rewrite Hl. f_equal; [|exact Ho].
    f_equal. congruence.
Qed.

Lemma edit_flow_witness :
  nth_error (list_notes two_notes) 1 = Some note_B
  /\ exists w' m,
       run_events [(sample_env, ClickCard 1); (sample_env, ClickEdit);
                   (later_env, TypeContent (js "new text")); (third_env, SubmitForm)]
                  two_notes = Some w'
       /\ List.find (fun x => jsstring_eqb (id x) (id note_B)) (list_notes two_notes) = Some m
       /\ list_notes w'
          = mkNote (id note_B) (js "new text") (createdAt m) (now third_env)
            :: others (id note_B) (list_notes two_notes)
       /\ modal w' = closed /\ form w' = mkForm (js "")
       /\ getItem (js "notes") (localStorage w') = Some (stringify (list_notes w'))
       /\ (NoDup (ids (list_notes two_notes)) ->
           m = note_B
           /\ exists l1 l2,
                list_notes two_notes = l1 ++ note_B :: l2 /\ List.length l1 = 1
                /\ list_notes w'
                   = mkNote (id note_B) (js "new text") (createdAt note_B) (now third_env)
                     :: l1 ++ l2).
Proof.
  assert (H : nth_error (list_notes two_notes) 1 = Some note_B) by reflexivity.
  exact (conj H (edit_flow two_notes sample_env sample_env later_env third_env 1
                   note_B (js "new text") H)).
Defined.

(** X15. Edit on the card of a note fills the form with the content of that
    note; a submit without any typing then still moves the note to the
    front and stamps its [updatedAt] with the current time, content and
    [createdAt] unchanged (ids pairwise distinct). *)
Theorem saving_unchanged_moves_note_first
    (w : World) (e1 e2 e3 : Env) (k : nat) (n : Note) :
  nth_error (list_notes w) k = Some n -> NoDup (ids (list_notes w)) ->
  exists w1 w' l1 l2,
    run_events [(e1, ClickCard k); (e2, ClickEdit)] w = Some w1
    /\ type (modal w1) = js "EDIT" /\ form w1 = mkForm (content n)
    /\ list_notes w1 = list_notes w
    /\ step e3 SubmitForm w1 = Some w'
    /\ list_notes w = l1 ++ n :: l2 /\ List.length l1 = k
    /\ list_notes w' = mkNote (id n) (content n) (createdAt n) (now e3) :: l1 ++ l2.
Proof.
  intros Hk Hnd. destruct (nth_error_list_notes w k n Hk) as (r & Hr & Hn).
  destruct (nth_error_split_ids _ k n Hk Hnd) as (l1 & l2 & Hsplit & Hlen & Ho & Hu).
  rewrite (open_edit_form w e1 e2 k r Hr).
  match goal with
  | |- context [Some ?w1 = Some _] =>
      destruct (submit_edit_form w1 e3 r eq_refl eq_refl)
        as (w' & m & Hs & Hfind & Hl & _);
        [eapply nth_error_In; exact Hr|];
        exists w1, w', l1, l2
  end.
  cbn [heap form field_content] in Hfind, Hl. rewrite Hn in Hfind, Hl.
  change (list_notes _) with (list_notes w) in Hfind at 1.
  assert (m = n) as -> by congruence.
  repeat split; trivial.
  - cbn [form]. now rewrite Hn.
  - rewrite Hl. f_equal. exact Ho.
Qed.

Lemma two_notes_distinct : NoDup (ids (list_notes two_notes)).
Proof. distinct_ids. Qed.

Lemma saving_unchanged_moves_note_first_witness :
  nth_error (list_notes two_notes) 1 = Some note_B
  /\ NoDup (ids (list_notes two_notes))
  /\ exists w1 w' l1 l2,
       run_events [(sample_env, ClickCard 1); (sample_env, ClickEdit)] two_notes = Some w1
       /\ type (modal w1) = js "EDIT" /\ form w1 = mkForm (content note_B)
       /\ list_notes w1 = list_notes two_notes
       /\ step later_env SubmitForm w1 = Some w'
       /\ list_notes two_notes = l1 ++ note_B :: l2 /\ List.length l1 = 1
       /\ list_notes w'
          = mkNote (id note_B) (content note_B) (createdAt note_B) (now later_env)
            :: l1 ++ l2.
Proof.
  assert (H : nth_error (list_notes two_notes) 1 = Some note_B) by reflexivity.
  exact (conj H (conj two_notes_distinct
    (saving_unchanged_moves_note_first two_notes sample_env sample_env later_env 1
       note_B H two_notes_distinct))).
Defined.

(** X16. From the card of a note, Delete removes every note of that note's
    id, closes the modal and stores what is left; with pairwise distinct
    ids it removes the note of the card and nothing else. *)
Theorem delete_flow (w : World) (e1 e2 : Env) (k : nat) (n : Note) :
  nth_error (list_notes w) k = Some n ->
  exists w',
    run_events [(e1, ClickCard k); (e2, ClickDelete)] w = Some w'
    /\ list_notes w' = others (id n) (list_notes w)
    /\ modal w' = closed
    /\ getItem (js "notes") (localStorage w') = Some (stringify (list_notes w'))
    /\ (NoDup (ids (list_notes w)) ->
        exists l1 l2,
          list_notes w = l1 ++ n :: l2 /\ List.length l1 = k
          /\ list_notes w' = l1 ++ l2).
Proof.
  intro Hk. destruct (nth_error_list_notes w k n Hk) as (r & Hr & Hn).
  cbn [run_events]. rewrite (step_ClickCard w e1 k r Hr).
  match goal with
  | |- context [step e2 ClickDelete ?w1] =>
      destruct (step_ClickDelete w1 e2 eq_refl) as (w' & Hs & Hm & _ & _ & Hl & Hst)
  end.
  cbn [modal data option_map heap] in Hl. rewrite Hn in Hl.
  rewrite deleteNote_list in Hl. change (list_notes _) with (list_notes w) in Hl at 2.
  rewrite Hs. exists w'. repeat split; trivial.
  intro Hnd.
  destruct (nth_error_split_ids _ k n Hk Hnd) as (l1 & l2 & Hsplit & Hlen & Ho & _).
  exists l1, l2. repeat split; trivial. now rewrite Hl.
Qed.

Lemma delete_flow_witness :
  nth_error (list_notes twins) 2 = Some note_A2
  /\ exists w',
       run_events [(sample_env, ClickCard 2); (later_env, ClickDelete)] twins = Some w'
       /\ list_notes w' = others (id note_A2) (list_notes twins)
       /\ modal w' = closed
       /\ getItem (js "notes") (localStorage w') = Some (stringify (list_notes w'))
       /\ (NoDup (ids (list_notes twins)) ->
           exists l1 l2,
             list_notes twins = l1 ++ note_A2 :: l2 /\ List.length l1 = 2
             /\ list_notes w' = l1 ++ l2).
Proof.
  assert (H : nth_error (list_notes twins) 2 = Some note_A2) by reflexivity.
  exact (conj H (delete_flow twins sample_env later_env 2 note_A2 H)).
Defined.

(** X17. A click outside the form closes the modal and keeps what was typed
    in the form field: the + button then shows the add form with that
    draft, and a submit adds a note with it. *)
Theorem draft_survives_click_outside (w : World) (e1 e2 e3 e4 : Env) (s : jsstring) :
  form_open w = true ->
  exists w3 w',
    run_events [(e1, TypeContent s); (e2, ClickFormOverlay); (e3, ClickAdd)] w = Some w3
    /\ type (modal w3) = js "ADD" /\ form w3 = mkForm s
    /\ list_notes w3 = list_notes w
    /\ step e4 SubmitForm w3 = Some w'
    /\ list_notes w' = mkNote (uuid e4) s (now e4) (now e4) :: list_notes w.
Proof.
  intro Hopen. cbn [run_events]. rewrite (step_TypeContent w e1 s Hopen).
  rewrite step_ClickFormOverlay by exact Hopen. rewrite step_ClickAdd.
  match goal with
  | |- context [Some ?w3 = Some _] =>
      destruct (step_SubmitForm_add w3 e4 eq_refl) as (w' & Hs & _ & _ & _ & Hl & _);
        exists w3, w'
  end.
  repeat split; trivial.
Qed.

Lemma draft_survives_click_outside_witness :
  form_open editing_world = true
  /\ exists w3 w',
       run_events [(sample_env, TypeContent (js "half a thought"));
                   (sample_env, ClickFormOverlay); (later_env, ClickAdd)] editing_world
       = Some w3
       /\ type (modal w3) = js "ADD" /\ form w3 = mkForm (js "half a thought")
       /\ list_notes w3 = list_notes editing_world
       /\ step third_env SubmitForm w3 = Some w'
       /\ list_notes w'
          = mkNote (uuid third_env) (js "half a thought") (now third_env) (now third_env)
            :: list_notes editing_world.
Proof.
  assert (H : form_open editing_world = true) by reflexivity.
  exact (conj H (draft_survives_click_outside editing_world sample_env sample_env
                   later_env third_env (js "half a thought") H)).
Defined.

Lemma Event_eq_cases (ev : Event) :
  ev = SubmitForm \/ ev = ClickDelete \/ (ev <> SubmitForm /\ ev <> ClickDelete).
Proof. destruct ev; auto; right; right; split; discriminate. Qed.

Lemma undefined_id_store (w : World) (e : Env) (c : jsstring) :
  list_notes (dispatch (deleteNote None) e w) = list_notes w
  /\ list_notes (dispatch (editNote None c) e w) = list_notes w.
Proof.
  split; [apply deleteNote_undefined_list|].
  assert (Hfind : List.find (fun note => strict_eq (id (heap w note)) None) (notes w) = None).
  { induction (notes w) as [|r l IH]; [reflexivity|exact IH]. }
  now rewrite (dispatch_throw_at_start _ e w _ (editNote_not_found None c e w Hfind)).
Qed.

Lemma step_keeps_ids_distinct (w w' : World) (e : Env) (ev : Event) :
  NoDup (ids (list_notes w)) ->
  (ev = SubmitForm -> type (modal w) = js "ADD" ->
   ~ In (uuid e) (ids (list_notes w))) ->
  step e ev w = Some w' ->
  NoDup (ids (list_notes w')).
Proof.
  intros Hnd Hfresh Hstep.
  destruct (Event_eq_cases ev) as [-> | [-> | [Hs Hd]]].
  - unfold step in Hstep. simpl in Hstep.
    destruct (form_open w) eqn:Hopen; [|discriminate]. injection Hstep as <-.
    destruct (list_eq_dec N.eq_dec (type (modal w)) (js "ADD")) as [Ht|Ht].
    + destruct (step_SubmitForm_add w e Ht) as (w' & Hs & _ & _ & _ & Hl & _).
      unfold step in Hs. simpl in Hs. rewrite Hopen in Hs. injection Hs as <-.
      rewrite Hl. simpl. constructor; [now apply Hfresh|exact Hnd].
    + rewrite (submit_edit_list w e Ht).
      destruct (data (modal w)) as [r|]; cbn [option_map].
      * now apply (apply_op_NoDup (e, Edit (id (heap w r)) (field_content (form w)))).
      * destruct (undefined_id_store w e (field_content (form w))) as (_ & ->).
        exact Hnd.
  - destruct (view_open w) eqn:Hv;
      [|unfold step in Hstep; simpl in Hstep; rewrite Hv in Hstep; discriminate].
    destruct (step_ClickDelete w e Hv) as (w0 & Hs & _ & _ & _ & Hl & _).
    rewrite Hs in Hstep. injection Hstep as <-. rewrite Hl.
    destruct (data (modal w)) as [r|]; cbn [option_map].
    + now apply (apply_op_NoDup (e, Delete (id (heap w r)))).
    + destruct (undefined_id_store w e []) as (-> & _). exact Hnd.
  - destruct (step_frame w w' e ev Hstep Hs Hd) as (_ & -> & _). exact Hnd.
Qed.

(** X18. Through the interface too the ids stay pairwise distinct: from a
    collection with distinct ids, every sequence of actions in which each
    submit of the add form draws a fresh id leaves distinct ids. *)
Theorem ids_stay_distinct_through_actions (l : list (Env * Event)) (w w' : World) :
  NoDup (ids (list_notes w)) -> fresh_uuids l w ->
  run_events l w = Some w' ->
  NoDup (ids (list_notes w')).
Proof.
  revert w. induction l as [|[e ev] l IH]; simpl; intros w Hnd Hfresh Hrun.
  - injection Hrun as <-. exact Hnd.
  - destruct Hfresh as [Hnow Hlater].
    destruct (step e ev w) as [w1|] eqn:Hstep; [|discriminate].
    apply (IH w1); trivial.
    apply (step_keeps_ids_distinct w w1 e ev Hnd); trivial.
    intros -> Ht. now apply Hnow.
Qed.

Lemma ids_stay_distinct_through_actions_witness :
  NoDup (ids (list_notes two_notes))
  /\ fresh_uuids sample_events two_notes
  /\ exists w',
       run_events sample_events two_notes = Some w'
       /\ NoDup (ids (list_notes w')).
Proof.
  assert (H1 : fresh_uuids sample_events two_notes)
    by (vm_compute; repeat split; intros; intuition discriminate).
  destruct (run_events sample_events two_notes) as [w'|] eqn:Hrun.
  - exact (conj two_notes_distinct (conj H1 (ex_intro _ w' (conj eq_refl
      (ids_stay_distinct_through_actions sample_events two_notes w'
         two_notes_distinct H1 Hrun))))).
  - vm_compute in Hrun. discriminate Hrun.
Defined.

(* ===================================================================== *)
(** * Further properties: what the component shows                        *)
(* ===================================================================== *)

(** X19. The text of a card is the beginning of the content, at most 100
    code units of it; it is the whole content exactly when the content has
    at most 100 code units, and the dots are shown exactly when it is not
    (a content of exactly 100 is shown whole, without dots). *)
Theorem card_text_is_cut_at_100 (c : jsstring) :
  (exists rest, c = card_text c ++ rest)
  /\ List.length (card_text c) = Nat.min (List.length c) 100
  /\ (card_text c = c <-> List.length c <= 100)
  /\ (card_dots c = true <-> card_text c <> c).
Proof.
  unfold card_text, card_dots, slice0.
  destruct (Nat.ltb_spec (List.length c) 100) as [Hlt|Hge].
  - split; [exists []; now rewrite app_nil_r|]. split; [lia|].
    split; [split; [lia|reflexivity]|].
    split; [|intro H; now contradiction H].
    intro H. apply Nat.ltb_lt in H. lia.
  - split; [exists (skipn 100 c); now rewrite firstn_skipn|].
    split; [rewrite length_firstn; lia|].
    assert (Hiff : firstn 100 c = c <-> List.length c <= 100).
    { split.
      - intro H. rewrite <- H, length_firstn. lia.
      - intro H. now apply firstn_all2. }
    split; [exact Hiff|].
    rewrite Nat.ltb_lt. split.
    + intros H E. apply Hiff in E. lia.
    + intro H. destruct (Nat.le_gt_cases (List.length c) 100) as [Hle|Hgt]; [|exact Hgt].
      exfalso. apply H. now apply Hiff.
Qed.

(** X20. The cut counts code units: when the hundredth and the next code
    unit of the content are a surrogate pair, the text of the card ends
    with the leading half alone. *)
Theorem card_text_can_split_a_pair (pre rest : jsstring) (hi lo : code_unit) :
  List.length pre = 99 ->
  is_leading_surrogate hi = true -> is_trailing_surrogate lo = true ->
  card_text (pre ++ hi :: lo :: rest) = pre ++ [hi]
  /\ card_dots (pre ++ hi :: lo :: rest) = true
  /\ is_leading_surrogate (last (card_text (pre ++ hi :: lo :: rest)) 0%N) = true.
Proof.
  intros Hlen Hhi Hlo.
  assert (Htext : card_text (pre ++ hi :: lo :: rest) = pre ++ [hi]).
  { unfold card_text, slice0.
    replace (Nat.ltb (List.length (pre ++ hi :: lo :: rest)) 100) with false
      by (symmetry; apply Nat.ltb_ge; rewrite length_app; cbn [List.length]; lia).
    change (pre ++ hi :: lo :: rest) with (pre ++ [hi] ++ lo :: rest).
    rewrite app_assoc. rewrite firstn_app.
    replace (100 - List.length (pre ++ [hi])) with 0
      by (rewrite length_app; cbn [List.length]; lia).
    rewrite firstn_all2 by (rewrite length_app; cbn [List.length]; lia).
    simpl. now rewrite app_nil_r. }
  split; [exact Htext|]. split.
  - unfold card_dots. apply Nat.ltb_lt. rewrite length_app. cbn [List.length]. lia.
  - rewrite Htext, last_last. exact Hhi.
Qed.

Lemma card_text_can_split_a_pair_witness :
  List.length ninety_nine = 99
  /\ is_leading_surrogate 55357%N = true /\ is_trailing_surrogate 56832%N = true
  /\ card_text (ninety_nine ++ 55357%N :: 56832%N :: [98; 99]%N) = ninety_nine ++ [55357%N]
  /\ card_dots (ninety_nine ++ 55357%N :: 56832%N :: [98; 99]%N) = true
  /\ is_leading_surrogate
       (last (card_text (ninety_nine ++ 55357%N :: 56832%N :: [98; 99]%N)) 0%N) = true.
Proof.
  assert (H1 : List.length ninety_nine = 99) by reflexivity.
  assert (H2 : is_leading_surrogate 55357%N = true) by reflexivity.
  assert (H3 : is_trailing_surrogate 56832%N = true) by reflexivity.
  exact (conj H1 (conj H2 (conj H3
    (card_text_can_split_a_pair ninety_nine [98; 99]%N 55357%N 56832%N H1 H2 H3)))).
Defined.




(** X22. [markdownMode] changes by the checkbox of the view modal only, to
    the value checked; the checkbox changes nothing else, and no other
    action, closing the modal included, resets the mode. *)
Theorem markdownMode_follows_the_checkbox (w w' : World) (e : Env) (ev : Event) :
  step e ev w = Some w' ->
  markdownMode w' = match ev with
                    | ToggleMarkdown b => b
                    | _ => markdownMode w
                    end
  /\ (forall b, ev = ToggleMarkdown b ->
        modal w' = modal w /\ form w' = form w /\ notes w' = notes w
        /\ list_notes w' = list_notes w /\ localStorage w' = localStorage w).
Proof.
  intro Hstep. split.
  - destruct (Event_eq_cases ev) as [-> | [-> | [Hs Hd]]].
    + unfold step in Hstep. simpl in Hstep.
      destruct (form_open w) eqn:Hopen; [|discriminate]. injection Hstep as <-.
      destruct (list_eq_dec N.eq_dec (type (modal w)) (js "ADD")) as [Ht|Ht].
      * unfold dispatch. rewrite (submit_add w e Ht). reflexivity.
      * unfold dispatch. rewrite (submit_edit w e Ht).
        destruct (editNote_cases (option_map (fun r => id (heap w r)) (data (modal w)))
                                 (field_content (form w)) e w) as [Hth|(h & l & Hn)].
        -- rewrite Hth. reflexivity.
        -- rewrite Hn. reflexivity.
    + destruct (view_open w) eqn:Hv;
        [|unfold step in Hstep; simpl in Hstep; rewrite Hv in Hstep; discriminate].
      destruct (step_ClickDelete w e Hv) as (w0 & Hs & _ & _ & Hmd & _).
      rewrite Hs in Hstep. injection Hstep as <-. exact Hmd.
    + unfold step in Hstep.
      destruct (handler_of ev w) as [h|] eqn:Hh; [|discriminate].
      injection Hstep as <-.
      destruct ev; try contradiction; simpl in Hh;
        try (destruct (form_open w); [|discriminate]);
        try (destruct (view_open w); [|discriminate]);
        try (destruct (nth_error (notes w) k); [|discriminate]);
        injection Hh as <-; try reflexivity.
      destruct (data (modal w)); reflexivity.
  - intros b ->. unfold step in Hstep. simpl in Hstep.
    destruct (view_open w); [|discriminate]. injection Hstep as <-.
    repeat split.
Qed.

Lemma markdownMode_follows_the_checkbox_witness :
  step sample_env (ToggleMarkdown false) viewing_world
  = Some (dispatch (setMarkdownMode false) sample_env viewing_world)
  /\ markdownMode (dispatch (setMarkdownMode false) sample_env viewing_world) = false
  /\ (forall b, ToggleMarkdown false = ToggleMarkdown b ->
        modal (dispatch (setMarkdownMode false) sample_env viewing_world)
        = modal viewing_world
        /\ form (dispatch (setMarkdownMode false) sample_env viewing_world)
           = form viewing_world
        /\ notes (dispatch (setMarkdownMode false) sample_env viewing_world)
           = notes viewing_world
        /\ list_notes (dispatch (setMarkdownMode false) sample_env viewing_world)
           = list_notes viewing_world
        /\ localStorage (dispatch (setMarkdownMode false) sample_env viewing_world)
           = localStorage viewing_world).
Proof.
  assert (H : step sample_env (ToggleMarkdown false) viewing_world
              = Some (dispatch (setMarkdownMode false) sample_env viewing_world))
    by reflexivity.
  exact (conj H (markdownMode_follows_the_checkbox viewing_world _ sample_env
                   (ToggleMarkdown false) H)).
Defined.

(* ===================================================================== *)
(** * Further properties: the notes an operation does not aim at          *)
(* ===================================================================== *)

Lemma others_keeps (i : jsstring) (l : list Note) (n : Note) :
  In n l -> id n <> i -> In n (others i l).
Proof.
  intros Hn Hid. unfold others. apply filter_In. split; [exact Hn|].
  apply jsstring_eqb_neq in Hid. now rewrite Hid.
Qed.

Lemma others_app (i : jsstring) (l1 l2 : list Note) :
  others i (l1 ++ l2) = others i l1 ++ others i l2.
Proof. unfold others. apply filter_app. Qed.

Lemma others_cons_keep (i : jsstring) (n : Note) (l : list Note) :
  id n <> i -> others i (n :: l) = n :: others i l.
Proof.
  intro H. unfold others. simpl. apply jsstring_eqb_neq in H. now rewrite H.
Qed.

Lemma others_before (i : jsstring) (a b : Note) (l : list Note) :
  before a b l -> id a <> i -> id b <> i -> before a b (others i l).
Proof.
  intros (l1 & l2 & l3 & ->) Ha Hb.
  exists (others i l1), (others i l2), (others i l3).
  rewrite others_app, (others_cons_keep i a) by exact Ha.
  rewrite others_app, (others_cons_keep i b) by exact Hb. reflexivity.
Qed.

Lemma before_cons (x a b : Note) (l : list Note) : before a b l -> before a b (x :: l).
Proof. intros (l1 & l2 & l3 & ->). now exists (x :: l1), l2, l3. Qed.

(** What one operation makes of the collection. *)
Lemma apply_op_list (eo : Env * Op) (w : World) :
  match snd eo with
  | Add c =>
      list_notes (apply_op eo w)
      = mkNote (uuid (fst eo)) c (now (fst eo)) (now (fst eo)) :: list_notes w
  | Edit i c =>
      list_notes (apply_op eo w) = list_notes w
      \/ exists n', list_notes (apply_op eo w) = n' :: others i (list_notes w)
  | Delete i => list_notes (apply_op eo w) = others i (list_notes w)
  end.
Proof.
  destruct eo as [e [c|i c|i]]; unfold apply_op; cbn [fst snd op_handler].
  - apply addNote_list.
  - destruct (in_dec (list_eq_dec N.eq_dec) i (ids (list_notes w))) as [Hin|Hout].
    + right. destruct (editNote_present _ c e w Hin) as (n & p & _ & _ & _ & ->).
      eexists. reflexivity.
    + left. now rewrite (dispatch_throw_at_start _ _ _ _ (editNote_absent _ c e w Hout)).
  - apply deleteNote_list.
Qed.

(** X23. A note is lost or altered only by an edit or a delete of its own
    id: through any sequence of operations that edits and deletes other ids
    only, every note of the collection is still there, field for field. *)
Theorem untouched_notes_stay (ops : list (Env * Op)) (w : World) (n : Note) :
  In n (list_notes w) -> untouched (id n) ops ->
  In n (list_notes (apply_ops ops w)).
Proof.
  revert w. induction ops as [|eo ops IH]; simpl; intros w Hn Hu; [exact Hn|].
  apply IH.
  - pose proof (apply_op_list eo w) as Hl. destruct eo as [e o].
    specialize (Hu e o (or_introl eq_refl)). simpl in Hl.
    destruct o as [c|i c|i].
    + rewrite Hl. now right.
    + destruct Hl as [->|(n' & ->)]; [exact Hn|]. right.
      apply others_keeps; [exact Hn|now apply not_eq_sym].
    + rewrite Hl. apply others_keeps; [exact Hn|now apply not_eq_sym].
  - intros e o Hin. apply (Hu e o). now right.
Qed.

(** X24. The notes an operation does not aim at keep their relative order:
    through any sequence of operations that edits and deletes other ids
    only, a note that came before another still comes before it. *)
Theorem untouched_notes_keep_their_order
    (ops : list (Env * Op)) (w : World) (a b : Note) :
  before a b (list_notes w) -> untouched (id a) ops -> untouched (id b) ops ->
  before a b (list_notes (apply_ops ops w)).
Proof.
  revert w. induction ops as [|eo ops IH]; simpl; intros w Hab Ha Hb; [exact Hab|].
  apply IH.
  - pose proof (apply_op_list eo w) as Hl. destruct eo as [e o].
    specialize (Ha e o (or_introl eq_refl)). specialize (Hb e o (or_introl eq_refl)).
    simpl in Hl. destruct o as [c|i c|i].
    + rewrite Hl. now apply before_cons.
    + destruct Hl as [->|(n' & ->)]; [exact Hab|]. apply before_cons.
      apply others_before; trivial; now apply not_eq_sym.
    + rewrite Hl. apply others_before; trivial; now apply not_eq_sym.
  - intros e o Hin. apply (Ha e o). now right.
  - intros e o Hin. apply (Hb e o). now right.
Qed.

Ltac leaves_alone :=
  let e := fresh "e" in let o := fresh "o" in let H := fresh "H" in
  intros e o H; simpl in H;
  repeat (destruct H as [H|H];
          [injection H as <- <-; try exact I;
           let E := fresh "E" in intro E; vm_compute in E; discriminate E|]);
  contradiction.

Lemma quiet_ops_leave_B : untouched (id note_B) quiet_ops.
Proof. leaves_alone. Qed.

Lemma quiet_ops_leave_C : untouched (id note_C) quiet_ops.
Proof. leaves_alone. Qed.

Lemma untouched_notes_stay_witness :
  In note_B (list_notes three_notes)
  /\ untouched (id note_B) quiet_ops
  /\ In note_B (list_notes (apply_ops quiet_ops three_notes)).
Proof.
  assert (H : In note_B (list_notes three_notes)) by (right; left; reflexivity).
  exact (conj H (conj quiet_ops_leave_B
    (untouched_notes_stay quiet_ops three_notes note_B H quiet_ops_leave_B))).
Defined.

Lemma untouched_notes_keep_their_order_witness :
  before note_B note_C (list_notes three_notes)
  /\ untouched (id note_B) quiet_ops /\ untouched (id note_C) quiet_ops
  /\ before note_B note_C (list_notes (apply_ops quiet_ops three_notes)).
Proof.
  assert (H : before note_B note_C (list_notes three_notes))
    by (exists [note_A], [], []; reflexivity).
  exact (conj H (conj quiet_ops_leave_B (conj quiet_ops_leave_C
    (untouched_notes_keep_their_order quiet_ops three_notes note_B note_C H
       quiet_ops_leave_B quiet_ops_leave_C)))).
Defined.
